(** * The admin menu items and the UOM seed command

    A shallow embedding of
    - [one/libraries/admin/menu/items.py]: [MenuItem], [AppList], [ModelList];
    - [one/masterdata/uom/management/commands/initial_uom.py]: the command
      that seeds the units of measure;
    followed by the properties of both.

    Definitions come first (modules [PyStr], [Menu], [Seed]), the lemmas
    about them afterwards. *)

From Stdlib Require Import String Ascii ZArith Permutation.
From stdpp Require Import gmap strings list sorting.

Set Warnings "-register-all".
Open Scope string_scope.

(* ================================================================== *)
(** * Python strings: order, stable sort by key, [str.upper] *)
(* ================================================================== *)

Module PyStr.

(** Python orders [str] values by code point.  A string is held here as its
    UTF-8 bytes, and the byte-wise lexicographic order of UTF-8 is the code
    point order, so [<=] on [str] is [String.leb]. *)
Definition le (a b : string) : Prop := String.leb a b = true.
Definition lt (a b : string) : Prop := String.ltb a b = true.

Section sorting.
Context {A : Type} (key : A → string).

(** [list.sort(key=...)] and [sorted] are stable: elements whose keys are
    equal keep their relative order.  The stable result is unique, so it
    is computed by a stable insertion sort: an element is placed before
    the first one of the already sorted tail whose key is not smaller. *)
Fixpoint insert_by (x : A) (l : list A) : list A :=
  match l with
  | [] => [x]
  | y :: l' =>
      if String.leb (key x) (key y) then x :: y :: l' else y :: insert_by x l'
  end.

Fixpoint sorted_by (l : list A) : list A :=
  match l with
  | [] => []
  | x :: l' => insert_by x (sorted_by l')
  end.

(** The order of the result: by key. *)
Definition key_le (x y : A) : Prop := le (key x) (key y).
End sorting.

(** [sorted(xs)] on a list of strings. *)
Definition sorted (l : list string) : list string := sorted_by id l.

(** [str.upper] on ASCII strings: the letters a-z are mapped to A-Z and
    every other character is kept.  On a string with a character outside
    ASCII the bytes are kept, which is not what [str.upper] does with
    letters such as the dotless i; [is_ascii] marks the strings on which
    the two agree. *)
Definition upper_ascii (c : ascii) : ascii :=
  let n := N_of_ascii c in
  if ((97 <=? n) && (n <=? 122))%N then ascii_of_N (n - 32) else c.

Fixpoint upper (s : string) : string :=
  match s with
  | EmptyString => EmptyString
  | String c s' => String (upper_ascii c) (upper s')
  end.

(** Every character of the string is an ASCII character. *)
Fixpoint is_ascii (s : string) : bool :=
  match s with
  | EmptyString => true
  | String c s' => (N_of_ascii c <? 128)%N && is_ascii s'
  end.

End PyStr.

(* ================================================================== *)
(** * [one/libraries/admin/menu/items.py] *)
(* ================================================================== *)

Module Menu.

(** The request and the template context, as far as the menu reads them. *)
Record HttpRequest := mkRequest {
  get_full_path : string;   (* request.get_full_path() *)
  user : string             (* the requesting principal *)
}.

Record Context := mkContext { request : HttpRequest }.   (* context["request"] *)

(** A registered model: [model.__module__ + "." + model.__name__],
    [model._meta.app_label] and [model._meta.verbose_name_plural]. *)
Record Model := mkModel {
  dotted_name : string;
  app_label : string;
  verbose_name_plural : string
}.

#[global] Instance Model_eq_dec : EqDecision Model.
Proof. solve_decision. Defined.

(** The pattern lists held by an [AppList] or a [ModelList]. *)
Record Patterns := mkPatterns {
  models : list string;
  exclude : list string;
  include_list : list string;   (* deprecated *)
  exclude_list : list string    (* deprecated *)
}.

(** The class of a menu item; the two subclasses carry their pattern lists. *)
Inductive item_class :=
| PlainItem
| AppListItem (p : Patterns)
| ModelListItem (p : Patterns).

(** [class MenuItem]: the instance attributes. *)
Inductive MenuItem := mkMenuItem {
  cls : item_class;
  title : string;
  url : string;
  fas_icon : option string;
  css_classes : list string;
  accesskey : option string;
  description : option string;
  enabled : bool;
  template : string;
  children : list MenuItem
}.

(** [self.children = ...] and [self.children.append(item)]. *)
Definition set_children (self : MenuItem) (cs : list MenuItem) : MenuItem :=
  mkMenuItem (cls self) (title self) (url self) (fas_icon self)
    (css_classes self) (accesskey self) (description self) (enabled self)
    (template self) cs.

Definition append_child (self item : MenuItem) : MenuItem :=
  set_children self (children self ++ [item]).

(** One step of [for key in kwargs: if hasattr(self.__class__, key):
    setattr(self, key, kwargs[key])], for the keywords the methods of this
    module pass and their like: a string-valued class attribute
    ([fas_icon], [accesskey], [description], [template]) is set, and a
    keyword that names no attribute of the class, such as [app_label], is
    dropped.  A keyword that names another attribute of the class
    ([children], [css_classes], [enabled], a method) carries a value that
    is no string and is not covered; the statements below build new items
    without keywords. *)
Definition set_kwarg (self : MenuItem) (kv : string * string) : MenuItem :=
  let '(key, v) := kv in
  if String.eqb key "fas_icon" then
    mkMenuItem (cls self) (title self) (url self) (Some v) (css_classes self)
      (accesskey self) (description self) (enabled self) (template self)
      (children self)
  else if String.eqb key "accesskey" then
    mkMenuItem (cls self) (title self) (url self) (fas_icon self)
      (css_classes self) (Some v) (description self) (enabled self)
      (template self) (children self)
  else if String.eqb key "description" then
    mkMenuItem (cls self) (title self) (url self) (fas_icon self)
      (css_classes self) (accesskey self) (Some v) (enabled self)
      (template self) (children self)
  else if String.eqb key "template" then
    mkMenuItem (cls self) (title self) (url self) (fas_icon self)
      (css_classes self) (accesskey self) (description self) (enabled self)
      v (children self)
  else self.

(** [MenuItem.__init__(self, title=None, url=None, **kwargs)], run on an
    instance of class [c]; the class attributes give the defaults.  The
    keywords [title] and [url] are parameters of their own and do not occur
    in [kwargs]. *)
Definition MenuItem_init (c : item_class) (title url : option string)
    (kwargs : list (string * string)) : MenuItem :=
  let self :=
    mkMenuItem c (default "Untitled menu item" title) (default "#" url)
      None [] None None true "libraries/menu/item.html" [] in
  fold_left set_kwarg kwargs self.

(** A keyword of [**kwargs], and the keywords without it. *)
Definition kwargs_get (key : string) (kwargs : list (string * string))
    : option string :=
  snd <$> List.find (λ kv, String.eqb kv.1 key) kwargs.

Definition kwargs_without (key : string) (kwargs : list (string * string))
    : list (string * string) :=
  List.filter (λ kv, negb (String.eqb kv.1 key)) kwargs.

(** [AppList(title, models=..., exclude=..., ...)] and
    [ModelList(title, models, exclude, ...)]: the pattern lists are taken
    out of the keywords and the rest goes to [MenuItem.__init__], where a
    keyword [url] binds the parameter of that name. *)
Definition AppList_init (title : option string) (p : Patterns)
    (kwargs : list (string * string)) : MenuItem :=
  MenuItem_init (AppListItem p) title (kwargs_get "url" kwargs)
    (kwargs_without "url" kwargs).

Definition ModelList_init (title : option string) (p : Patterns)
    (kwargs : list (string * string)) : MenuItem :=
  MenuItem_init (ModelListItem p) title (kwargs_get "url" kwargs)
    (kwargs_without "url" kwargs).

(** [MenuItem.is_selected(self, request)], inherited by both subclasses. *)
Fixpoint is_selected (req : HttpRequest) (self : MenuItem) : bool :=
  let current_url := get_full_path req in
  String.eqb (url self) current_url
  || (0 <? List.length (List.filter (is_selected req) (children self)))%nat.

(** [is_empty]: [MenuItem.is_empty] returns [False]; [AppList.is_empty] and
    [ModelList.is_empty] return [len(self.children) == 0]. *)
Definition is_empty (self : MenuItem) : bool :=
  match cls self with
  | PlainItem => false
  | AppListItem _ | ModelListItem _ => (List.length (children self) =? 0)%nat
  end.

(** ** Building the children from the model registry *)

(** One entry of [apps[app_label]["models"]], and one value of [apps]. *)
Record model_dict := mkModelDict {
  md_app_label : string;
  md_title : string;
  md_url : string
}.

Record app_dict := mkAppDict {
  ad_app_label : string;
  ad_title : string;
  ad_url : string;
  ad_models : list model_dict
}.

(** [perms["change"] or perms.get("view", False)]: indexing raises
    [KeyError] ([None]) when the key ["change"] is absent, [get] does not. *)
Definition has_access (perms : gmap string bool) : option bool :=
  change ← perms !! "change";
  Some (change || default false (perms !! "view")).

Section with_registry.
(** What the methods call and this file does not define:
    - [AppListElementMixin._visible_models], which reads the pattern
      lists of [self] and the request;
    - [django_apps.get_app_config(app_label).verbose_name];
    - [AppListElementMixin._get_admin_app_list_url] and
      [_get_admin_change_url];
    - the table [MENU_EXTRA_DETAILS] of [menu/constants.py]. *)
Variable _visible_models :
  Patterns → HttpRequest → list (Model * gmap string bool).
Variable app_verbose_name : string → string.
Variable _get_admin_app_list_url : Model → Context → string.
Variable _get_admin_change_url : Model → Context → string.
Variable MENU_EXTRA_DETAILS : gmap string (gmap string string).

(** The body of the first loop of [AppList.init_with_context]. *)
Definition collect_model (context : Context) (apps : gmap string app_dict)
    (it : Model * gmap string bool) : option (gmap string app_dict) :=
  let '(model, perms) := it in
  ok ← has_access perms;
  if negb ok then Some apps
  else
    let label := app_label model in
    let apps1 :=
      match apps !! label with
      | None =>
          <[label := mkAppDict label (app_verbose_name label)
                       (_get_admin_app_list_url model context) []]> apps
      | Some _ => apps
      end in
    d ← apps1 !! label;
    Some (<[label := mkAppDict (ad_app_label d) (ad_title d) (ad_url d)
                       (ad_models d ++
                          [mkModelDict label (verbose_name_plural model)
                             (_get_admin_change_url model context)])]> apps1).

Fixpoint collect_models (context : Context) (apps : gmap string app_dict)
    (items : list (Model * gmap string bool))
    : option (gmap string app_dict) :=
  match items with
  | [] => Some apps
  | it :: rest =>
      apps' ← collect_model context apps it;
      collect_models context apps' rest
  end.

(** [MenuItem] called with the entries of [model_dict] as keywords. *)
Definition model_menu_item (md : model_dict) : MenuItem :=
  MenuItem_init PlainItem (Some (md_title md)) (Some (md_url md))
    [("app_label", md_app_label md)].

(** The item built for one application in the second loop: title and icon
    with their overrides, then the models sorted by title. *)
Definition app_menu_item (app : string) (d : app_dict) : MenuItem :=
  let title :=
    match MENU_EXTRA_DETAILS !! app with
    | Some extra => default (ad_title d) (extra !! "title")
    | None => ad_title d
    end in
  let icon :=
    match MENU_EXTRA_DETAILS !! app with
    | Some extra => default "fa-cube" (extra !! "icon")
    | None => "fa-cube"
    end in
  let item :=
    MenuItem_init PlainItem (Some title) (Some (ad_url d))
      [("fas_icon", icon)] in
  fold_left (λ item md, append_child item (model_menu_item md))
    (PyStr.sorted_by md_title (ad_models d)) item.

(** [for app in sorted(apps.keys()): ... self.children.append(item)]. *)
Fixpoint emit_apps (apps : gmap string app_dict) (keys : list string)
    (self : MenuItem) : option MenuItem :=
  match keys with
  | [] => Some self
  | app :: rest =>
      d ← apps !! app;
      emit_apps apps rest (append_child self (app_menu_item app d))
  end.

Definition AppList_init_with_context (p : Patterns) (self : MenuItem)
    (context : Context) : option MenuItem :=
  let items := _visible_models p (request context) in
  apps ← collect_models context ∅ items;
  emit_apps apps (PyStr.sorted (map fst (map_to_list apps))) self.

(** The body of the loop of [ModelList.init_with_context]. *)
Definition add_model (context : Context) (self : MenuItem)
    (it : Model * gmap string bool) : option MenuItem :=
  let '(model, perms) := it in
  ok ← has_access perms;
  if negb ok then Some self
  else
    let item :=
      MenuItem_init PlainItem (Some (verbose_name_plural model))
        (Some (_get_admin_change_url model context)) [] in
    Some (append_child self item).

Fixpoint add_models (context : Context) (self : MenuItem)
    (items : list (Model * gmap string bool)) : option MenuItem :=
  match items with
  | [] => Some self
  | it :: rest =>
      self' ← add_model context self it;
      add_models context self' rest
  end.

Definition ModelList_init_with_context (p : Patterns) (self : MenuItem)
    (context : Context) : option MenuItem :=
  add_models context self (_visible_models p (request context)).

(** [item.init_with_context(context)], dispatched on the class of the
    item; the method of [MenuItem] itself is [pass]. *)
Definition init_with_context (self : MenuItem) (context : Context)
    : option MenuItem :=
  match cls self with
  | PlainItem => Some self
  | AppListItem p => AppList_init_with_context p self context
  | ModelListItem p => ModelList_init_with_context p self context
  end.
End with_registry.

(** ** The visibility query *)

Section visible_models.
(** [fnmatch(name, pattern)] of the Python standard library, the model
    registry of the admin site, and the permission check of the
    permission system on (principal, model, action). *)
Variable fnmatch : string → string → bool.
Variable registry : list Model.
Variable has_perm : string → Model → string → bool.

Definition matches_any (patterns : list string) (m : Model) : bool :=
  existsb (fnmatch (dotted_name m)) patterns.

(** An empty inclusion list means every model. *)
Definition is_included (p : Patterns) (m : Model) : bool :=
  match models p with
  | [] => true
  | _ :: _ => matches_any (models p) m
  end.

Definition is_excluded (p : Patterns) (m : Model) : bool :=
  matches_any (exclude p) m.

Definition model_perms (req : HttpRequest) (m : Model) : gmap string bool :=
  <["change" := has_perm (user req) m "change"]>
    (<["view" := has_perm (user req) m "view"]> ∅).

(** The three conditions of visibility for the principal of a request. *)
Definition is_visible (p : Patterns) (req : HttpRequest) (m : Model) : bool :=
  (has_perm (user req) m "change" || has_perm (user req) m "view")
  && is_included p m && negb (is_excluded p m).

(** Modelled from the spec: [AppListElementMixin._visible_models] of
    [one/libraries/admin/utils.py], which is not among the sources.  The
    registered models whose dotted name matches an inclusion pattern (or
    all of them when there is none) and no exclusion pattern, in registry
    order, each with the permissions of the requesting principal. *)
Definition visible_models (p : Patterns) (req : HttpRequest)
    : list (Model * gmap string bool) :=
  map (λ m, (m, model_perms req m))
    (List.filter (λ m, is_included p m && negb (is_excluded p m)) registry).
End visible_models.

(** ** Vocabulary of the statements *)

(** [d] is below [m] in the tree: a child, or a descendant of a child. *)
Inductive descendant : MenuItem → MenuItem → Prop :=
| descendant_child c m : c ∈ children m → descendant c m
| descendant_deeper d c m :
    descendant d c → c ∈ children m → descendant d m.

(** The test both [init_with_context] methods apply to an entry of the
    visibility query, when its permissions have the key ["change"]. *)
Definition permitted (it : Model * gmap string bool) : bool :=
  default false (has_access it.2).

Definition has_change (it : Model * gmap string bool) : Prop :=
  is_Some (it.2 !! "change").

(** The models of the entries that pass the test, in query order. *)
Definition permitted_models (items : list (Model * gmap string bool))
    : list Model :=
  map fst (List.filter permitted items).

Definition models_of_app (a : string) (ms : list Model) : list Model :=
  List.filter (λ m, String.eqb (app_label m) a) ms.

Section entries.
Variable _get_admin_change_url : Model → Context → string.

(** The menu item that stands for a model: its plural name and the link to
    its admin list page. *)
Definition model_entry (context : Context) (m : Model) : MenuItem :=
  MenuItem_init PlainItem (Some (verbose_name_plural m))
    (Some (_get_admin_change_url m context)) [].

Variable app_verbose_name : string → string.
Variable _get_admin_app_list_url : Model → Context → string.

Definition entry_dict (context : Context) (m : Model) : model_dict :=
  mkModelDict (app_label m) (verbose_name_plural m)
    (_get_admin_change_url m context).

(** What [apps] holds for the application [a] once the models [ms] have
    been collected: nothing when none of them belongs to [a]; otherwise
    the name of [a], the link taken from the first of its models, and its
    models in the order they came. *)
Definition expected_app_dict (context : Context) (a : string)
    (ms : list Model) : option app_dict :=
  match models_of_app a ms with
  | [] => None
  | m0 :: _ =>
      Some (mkAppDict a (app_verbose_name a)
              (_get_admin_app_list_url m0 context)
              (map (entry_dict context) (models_of_app a ms)))
  end.

(** The model [M] shows as a grandchild under the item of its application:
    some child [g] of [out] holds the entry of [M], and every child of [g]
    is the entry of a registered model of the application of [M]. *)
Definition in_app_group (registry : list Model) (context : Context)
    (M : Model) (out : MenuItem) : Prop :=
  ∃ g, g ∈ children out
       ∧ model_entry context M ∈ children g
       ∧ ∀ c, c ∈ children g →
              ∃ M', M' ∈ registry ∧ app_label M' = app_label M
                    ∧ c = model_entry context M'.
End entries.

#[global] Instance has_change_dec it : Decision (has_change it).
Proof. unfold has_change. apply _. Defined.

End Menu.

(** ** A small admin site, used by the examples *)

Module Sample.
Import Menu.

(** Shell-style matching with [*] (any run of characters) and [?] (any one
    character); every other character stands for itself. *)
Fixpoint glob (pattern name : string) : bool :=
  match pattern with
  | EmptyString =>
      match name with
      | EmptyString => true
      | String _ _ => false
      end
  | String c pattern' =>
      if Ascii.eqb c "*" then
        (fix star (name : string) : bool :=
           glob pattern' name
           || match name with
              | EmptyString => false
              | String _ name' => star name'
              end) name
      else
        match name with
        | EmptyString => false
        | String d name' =>
            (Ascii.eqb c "?" || Ascii.eqb c d) && glob pattern' name'
        end
  end.

Definition fnmatch (name pattern : string) : bool := glob pattern name.

Definition uom_model : Model :=
  mkModel "one.masterdata.uom.models.UOM" "uom" "Units of measure".

Definition registry : list Model :=
  [ mkModel "django.contrib.auth.models.Group" "auth" "Groups";
    uom_model;
    mkModel "django.contrib.auth.models.User" "auth" "Users";
    mkModel "one.masterdata.payroll.models.Payroll" "payroll" "Payrolls";
    mkModel "one.finance.extrafee.models.ExtraFee" "extrafee" "Extra fees" ].

(** [admin] may do everything, [clerk] may view the master data, anybody
    else nothing. *)
Definition has_perm (principal : string) (m : Model) (action : string) : bool :=
  String.eqb principal "admin"
  || (String.eqb principal "clerk" && String.eqb action "view"
      && (String.eqb (app_label m) "uom" || String.eqb (app_label m) "payroll")).

Definition app_verbose_name (label : string) : string :=
  String.append "Application " label.

Definition admin_app_list_url (m : Model) (_ : Context) : string :=
  String.append "/admin/" (String.append (app_label m) "/").

Definition admin_change_url (m : Model) (_ : Context) : string :=
  String.append "/admin/" (String.append (dotted_name m) "/").

Definition MENU_EXTRA_DETAILS : gmap string (gmap string string) :=
  <["uom" := <["title" := "Units"]> (<["icon" := "fa-ruler"]> ∅)]> ∅.

Definition as_admin : Context := mkContext (mkRequest "/admin/" "admin").
Definition as_clerk : Context := mkContext (mkRequest "/admin/" "clerk").

Definition all_models : Patterns := mkPatterns [] [] [] [].
Definition no_contrib : Patterns := mkPatterns [] ["django.contrib.*"] [] [].

Definition visible_models := Menu.visible_models fnmatch registry has_perm.

Definition init_with_context :=
  Menu.init_with_context visible_models app_verbose_name admin_app_list_url
    admin_change_url MENU_EXTRA_DETAILS.


End Sample.

(* ================================================================== *)
(** * [one/masterdata/uom/management/commands/initial_uom.py] *)
(* ================================================================== *)

Module Seed.

(** A row of the [UOM] table, keyed by its primary key in the table; only
    the columns the command reads or writes are kept. *)
Record UOM := mkUOM {
  code : string;
  name : string;
  base_uom_id : option Z
}.

Inductive error :=
| DoesNotExist
| MultipleObjectsReturned
| IntegrityError
| KeyError (key : string)
| CommandError (msg : string).

(** A computation on the table that returns a value or raises.  There is no
    transaction around the command: what was written before an exception
    stays written, so the table is returned in both cases. *)
Definition M (A : Type) : Type := gmap Z UOM → (error + A) * gmap Z UOM.

Definition ret {A} (a : A) : M A := λ t, (inr a, t).
Definition raise {A} (e : error) : M A := λ t, (inl e, t).
Definition bind {A B} (m : M A) (k : A → M B) : M B :=
  λ t, match m t with
       | (inr a, t') => k a t'
       | (inl e, t') => (inl e, t')
       end.

Notation "'let!' x := m 'in' k" := (bind m (λ x, k))
  (at level 10, x pattern, m at level 100, k at level 200,
   only parsing).

(** [for x in xs: body(x)]. *)
Fixpoint for_each {A} (body : A → M unit) (xs : list A) : M unit :=
  match xs with
  | [] => ret ()
  | x :: rest => let! _ := body x in for_each body rest
  end.

(** ** The queries of the object manager *)

Definition by_code (c : string) (r : UOM) : bool := String.eqb (code r) c.
Definition by_code_name (c n : string) (r : UOM) : bool :=
  String.eqb (code r) c && String.eqb (name r) n.

(** The rows, with their keys, that a filter selects. *)
Definition select (P : UOM → bool) (t : gmap Z UOM) : list (Z * UOM) :=
  List.filter (λ kv, P kv.2) (map_to_list t).

(** [UOM.objects.get(...)] with the lookup [P]. *)
Definition objects_get (P : UOM → bool) : M (Z * UOM) :=
  λ t, match select P t with
       | [] => (inl DoesNotExist, t)
       | [obj] => (inr obj, t)
       | _ :: _ :: _ => (inl MultipleObjectsReturned, t)
       end.

(** [obj.save()] of an object that came from the table. *)
Definition save (obj : Z * UOM) : M unit :=
  λ t, (inr (), <[obj.1 := obj.2]> t).

Section with_schema.
(** Whether the column [code] of [one.masterdata.uom.models.UOM] is
    declared unique; the model is not among the sources. *)
Variable unique_code : bool.

(** [UOM.objects.create(code=c, name=n)]: the insert is refused when it
    would break the uniqueness of [code]; otherwise the row gets an unused
    primary key and no base unit. *)
Definition objects_create (c n : string) : M (Z * UOM) :=
  λ t, if unique_code && negb (forallb (λ kv, negb (by_code c kv.2))
                                 (map_to_list t))
       then (inl IntegrityError, t)
       else let pk := fresh (dom t) in
            (inr (pk, mkUOM c n None), <[pk := mkUOM c n None]> t).

(** [QuerySet.get_or_create(code=c, name=n)] of Django: look the row up by
    all the keywords; create it when there is none; when the insert is
    refused look again, and raise the refusal if there is still none. *)
Definition get_or_create (c n : string) : M (Z * UOM * bool) :=
  λ t, match objects_get (by_code_name c n) t with
       | (inr obj, t1) => (inr (obj, false), t1)
       | (inl DoesNotExist, t1) =>
           match objects_create c n t1 with
           | (inr obj, t2) => (inr (obj, true), t2)
           | (inl IntegrityError, t2) =>
               match objects_get (by_code_name c n) t2 with
               | (inr obj, t3) => (inr (obj, false), t3)
               | (inl DoesNotExist, t3) => (inl IntegrityError, t3)
               | (inl e, t3) => (inl e, t3)
               end
           | (inl e, t2) => (inl e, t2)
           end
       | (inl e, t1) => (inl e, t1)
       end.

(** [QuerySet.update_or_create(code=c, name=n)]: no [defaults] are given,
    so a row that is found is saved back as it is. *)
Definition update_or_create (c n : string) : M (Z * UOM * bool) :=
  let! r := get_or_create c n in
  if r.2 then ret r
  else let! _ := save r.1 in ret r.

(** ** The command *)

(** One dictionary of the seed list; the key [base_uom] is optional. *)
Record seed := mkSeed {
  s_code : string;
  s_name : string;
  s_base_uom : option string
}.

(** [Command.uom_data]. *)
Definition CREATIVE : list seed :=
  [ mkSeed "UOM_PIECE" "Sản phẩm" None;
    mkSeed "UOM_SECTION" "Buổi" None;
    mkSeed "UOM_WORD" "Chữ" None;
    mkSeed "UOM_POST_LOWER_300" "Bài dưới 300 chữ" (Some "UOM_WORD");
    mkSeed "UOM_POST_301_500" "Bài 301 - 500 chữ" (Some "UOM_WORD");
    mkSeed "UOM_POST_501_700" "Bài 501 - 700 chữ" (Some "UOM_WORD");
    mkSeed "UOM_POST_701_900" "Bài 701 - 900 chữ" (Some "UOM_WORD");
    mkSeed "UOM_POST_901_1000" "Bài 901 - 1000 chữ" (Some "UOM_WORD");
    mkSeed "UOM_POST_1001_3000" "Bài 1001 - 3000 chữ" (Some "UOM_WORD");
    mkSeed "UOM_POST_UPPER_3000" "Bài trên 3000 chữ" (Some "UOM_WORD");
    mkSeed "UOM_SECOND" "Giây" None;
    mkSeed "UOM_SCRIPT_30_45" "Kịch bản 30-45s" (Some "UOM_SECOND");
    mkSeed "UOM_SCRIPT_60" "Kịch bản 60s" (Some "UOM_SECOND");
    mkSeed "UOM_SCRIPT_120" "Kịch bản 120s" (Some "UOM_SECOND");
    mkSeed "UOM_SCRIPT_180" "Kịch bản 180s" (Some "UOM_SECOND") ].

Definition uom_data : gmap string (list seed) := {[ "CREATIVE" := CREATIVE ]}.

(** [d[key]] on a dictionary. *)
Definition getitem {V} (d : gmap string V) (key : string) : M V :=
  match d !! key with
  | Some v => ret v
  | None => raise (KeyError key)
  end.

(** Truth value of a string: the empty string is false. *)
Definition truthy (s : string) : bool :=
  match s with
  | EmptyString => false
  | String _ _ => true
  end.

(** The body of the first loop of [handle]. *)
Definition upsert (uom : seed) : M unit :=
  let! _ := update_or_create (s_code uom) (s_name uom) in ret ().

(** The body of the second loop of [handle]. *)
Definition resolve_base (uom : seed) : M unit :=
  let! uom_obj := objects_get (by_code (s_code uom)) in
  match s_base_uom uom with
  | Some b =>
      if truthy b then
        let! base_uom := objects_get (by_code b) in
        save (uom_obj.1,
              mkUOM (code uom_obj.2) (name uom_obj.2) (Some base_uom.1))
      else ret ()
  | None => ret ()
  end.

(** The two loops of [handle] over a seed list. *)
Definition pass_one (data : list seed) : M unit := for_each upsert data.
Definition pass_two (data : list seed) : M unit := for_each resolve_base data.

Definition seed_all (data : list seed) : M unit :=
  let! _ := pass_one data in pass_two data.

(** [Command.handle(self, *args, **options)]; the value returned is the
    message written to standard output. *)
Definition handle (options : gmap string string) : M string :=
  let! default_data := getitem uom_data "CREATIVE" in
  let! data :=
    match options !! "business_type" with
    | Some business_type =>
        if truthy business_type
        then getitem uom_data (PyStr.upper business_type)
        else ret default_data
    | None => ret default_data
    end in
  let! _ := seed_all data in
  ret "Successfully created UOM objects.".

(** ** The command line *)

(** A positional argument as [parser.add_argument] declares it. *)
Record Argument := mkArgument {
  dest : string;
  choices : list string;
  arg_default : option string
}.

(** [Command.add_arguments]. *)
Definition add_arguments : Argument :=
  mkArgument "business_type" ["CREATIVE"] (Some "creative").

(** [parser.parse_args] on a command line of plain words (none of them an
    option of the framework, such as [--no-color] or [--help]), for a
    parser with the one positional argument [arg]: the argument is
    required (its default is not used), its value must be one of the
    choices, and no further word is accepted. *)
Definition parse_args (arg : Argument) (argv : list string)
    : error + gmap string string :=
  match argv with
  | [] => inl (CommandError "the following arguments are required")
  | [value] =>
      if bool_decide (value ∈ choices arg)
      then inr {[ dest arg := value ]}
      else inl (CommandError "invalid choice")
  | _ :: _ :: _ => inl (CommandError "unrecognized arguments")
  end.

(** [BaseCommand.run_from_argv]: the options are parsed first, and the
    body of the command runs only on options that were accepted. *)
Definition run_from_argv (arg : Argument)
    (body : gmap string string → M string) (argv : list string) : M string :=
  λ t, match parse_args arg argv with
       | inl e => (inl e, t)
       | inr options => body options t
       end.

Definition run_command (argv : list string) : M string :=
  run_from_argv add_arguments handle argv.
End with_schema.

(** ** The command line, for any parser that keeps to the choices *)






(** ** Vocabulary of the statements *)

(** The filter [P] selects exactly one row of [t]: the row [r] at key [k]. *)
Definition unique_row (P : UOM → bool) (t : gmap Z UOM) (k : Z) (r : UOM)
    : Prop :=
  t !! k = Some r ∧ P r = true
  ∧ ∀ k' r', t !! k' = Some r' → P r' = true → k' = k.

(** The code a seed entry refers to as its base unit, when [handle] takes it
    into account. *)
Definition target (uom : seed) : option string :=
  match s_base_uom uom with
  | Some b => if truthy b then Some b else None
  | None => None
  end.

(** After a run, the base unit of the entry [uom] is resolved in [t]: the
    one row that bears the code of [uom] refers to the one row that bears
    the code of its base unit. *)
Definition resolved (t : gmap Z UOM) (uom : seed) : Prop :=
  ∀ b, target uom = Some b →
       ∃ k r kb rb,
         unique_row (by_code (s_code uom)) t k r
         ∧ unique_row (by_code b) t kb rb
         ∧ base_uom_id r = Some kb.

(** A step succeeds on [t] and leaves it as it is. *)
Definition stable (f : M unit) (t : gmap Z UOM) : Prop := f t = (inr (), t).

(** A step that raises has not written. *)
Definition quiet_failure (f : M unit) : Prop :=
  ∀ t e t', f t = (inl e, t') → t' = t.

(** A step that succeeds leaves a table on which it is stable. *)
Definition settles (f : M unit) : Prop :=
  ∀ t t', f t = (inr (), t') → stable f t'.

(** A successful run of [g] keeps [f] stable. *)
Definition keeps (f g : M unit) : Prop :=
  ∀ t t', stable f t → g t = (inr (), t') → stable f t'.

(** Every step is kept stable by the steps that come after it. *)
Fixpoint compatible (fs : list (M unit)) : Prop :=
  match fs with
  | [] => True
  | f :: rest => Forall (keeps f) rest ∧ compatible rest
  end.

(** The steps of a list, one after the other. *)
Definition run (fs : list (M unit)) : M unit := for_each (λ f, f) fs.

End Seed.

(* ================================================================== *)
(** * [one/masterdata/payroll/admin.py] *)
(* ================================================================== *)

Module Payroll.

Inductive error :=
| IndexError
| KeyError (key : string)
| TypeError.

(** An entry of the [fields] of a fieldset: the name of a field, or the
    names of several fields shown on one line. *)
Inductive field :=
| Name (name : string)
| Line (names : list string).

#[global] Instance field_eq_dec : EqDecision field.
Proof. solve_decision. Defined.

(** A sequence is a tuple or a list. *)
Inductive kind := TupleSeq | ListSeq.

(** A value of the options dictionary of a fieldset: a sequence, as under
    ["fields"] and ["classes"], or a string, as under ["description"]. *)
Inductive value :=
| Seq (k : kind) (items : list field)
| Str (s : string).

(** One fieldset: its heading and its options. *)
Definition fieldset : Type := option string * gmap string value.

Definition payroll_fields : list field :=
  [ Name "content_type"; Name "object_id"; Name "is_active";
    Name "effective_date"; Name "expiry_date"; Name "allowance" ].

(** [PayrollAdmin.get_fieldsets], on what [super().get_fieldsets] returned:
    [fieldsets[0][1]["fields"] += (...)], then [return fieldsets].  The
    tuple of names is appended to a tuple or to a list; a string does not
    take it. *)
Definition get_fieldsets (fieldsets : list fieldset)
    : error + list fieldset :=
  match fieldsets with
  | [] => inl IndexError
  | (heading, options) :: rest =>
      match options !! "fields" with
      | None => inl (KeyError "fields")
      | Some (Seq k fs) =>
          inr ((heading, <["fields" := Seq k (fs ++ payroll_fields)]> options)
                 :: rest)
      | Some (Str _) => inl TypeError
      end
  end.

(** ** Vocabulary of the statements *)

(** The field names an entry shows, and those of a list of entries. *)
Definition names_of (f : field) : list string :=
  match f with
  | Name name => [name]
  | Line names => names
  end.

Definition all_names (fs : list field) : list string :=
  concat (map names_of fs).

(** The entries under ["fields"] of the first fieldset. *)
Definition first_fields (fieldsets : list fieldset) : option (list field) :=
  match fieldsets with
  | (_, options) :: _ =>
      match options !! "fields" with
      | Some (Seq _ fs) => Some fs
      | _ => None
      end
  | [] => None
  end.

End Payroll.

(* ================================================================== *)
(** * Properties of the string order and of the stable sort *)
(* ================================================================== *)

Module PyStrFacts.
Import PyStr.

Lemma ascii_compare_refl (a : ascii) : Ascii.compare a a = Eq.
Proof. unfold Ascii.compare. apply N.compare_refl. Qed.

Lemma ascii_compare_lt_trans (a b c : ascii) :
  Ascii.compare a b = Lt → Ascii.compare b c = Lt → Ascii.compare a c = Lt.
Proof.
  unfold Ascii.compare. rewrite !N.compare_lt_iff. apply N.lt_trans.
Qed.

Lemma compare_refl (s : string) : String.compare s s = Eq.
Proof.
  induction s as [|a s IH]; simpl; [done|].
  by rewrite ascii_compare_refl.
Qed.

Lemma compare_lt_trans (s1 s2 s3 : string) :
  String.compare s1 s2 = Lt → String.compare s2 s3 = Lt →
  String.compare s1 s3 = Lt.
Proof.
  revert s2 s3. induction s1 as [|a s1 IH]; intros [|b s2] [|c s3]; simpl;
    try done.
  destruct (Ascii.compare a b) eqn:Hab; try done;
    destruct (Ascii.compare b c) eqn:Hbc; try done; intros H12 H23.
  - apply Ascii.compare_eq_iff in Hab, Hbc. subst.
    rewrite ascii_compare_refl. eauto.
  - apply Ascii.compare_eq_iff in Hab. subst. by rewrite Hbc.
  - apply Ascii.compare_eq_iff in Hbc. subst. by rewrite Hab.
  - by rewrite (ascii_compare_lt_trans a b c).
Qed.

Lemma le_cases (a b : string) : le a b ↔ a = b ∨ lt a b.
Proof.
  unfold le, lt, String.leb, String.ltb.
  destruct (String.compare a b) eqn:Hc; split.
  - intros _. left. by apply String.compare_eq_iff.
  - done.
  - by right.
  - done.
  - done.
  - intros [->|?]; [|done]. by rewrite compare_refl in Hc.
Qed.


Lemma lt_trans (a b c : string) : lt a b → lt b c → lt a c.
Proof.
  unfold lt, String.ltb.
  destruct (String.compare a b) eqn:H1; try done.
  destruct (String.compare b c) eqn:H2; try done.
  by rewrite (compare_lt_trans a b c).
Qed.

Lemma le_refl (a : string) : le a a.
Proof. apply le_cases. by left. Qed.

Lemma le_trans (a b c : string) : le a b → le b c → le a c.
Proof.
  rewrite !le_cases. intros [->|H1] [->|H2]; eauto using lt_trans.
Qed.

Lemma le_total (a b : string) : le a b ∨ le b a.
Proof. apply String.leb_total. Qed.

Lemma not_le_lt (a b : string) : String.leb a b = false → lt b a.
Proof.
  intros H. destruct (le_total a b) as [H1|H1].
  - unfold le in H1. congruence.
  - apply le_cases in H1 as [->|H1]; [|done].
    pose proof (le_refl a) as H2. unfold le in H2. congruence.
Qed.

Section sorting.
Context {A : Type} (key : A → string).

Lemma insert_by_perm (x : A) (l : list A) : insert_by key x l ≡ₚ x :: l.
Proof.
  induction l as [|y l IH]; simpl; [done|].
  destruct (String.leb (key x) (key y)); [done|].
  rewrite IH. apply perm_swap.
Qed.

Lemma sorted_by_perm (l : list A) : sorted_by key l ≡ₚ l.
Proof.
  induction l as [|x l IH]; simpl; [done|].
  by rewrite insert_by_perm, IH.
Qed.

Lemma insert_by_sorted (x : A) (l : list A) :
  StronglySorted (key_le key) l → StronglySorted (key_le key) (insert_by key x l).
Proof.
  induction 1 as [|y l Hl IH Hy]; simpl.
  - repeat constructor.
  - destruct (String.leb (key x) (key y)) eqn:Hxy.
    + constructor; [by constructor|].
      constructor; [done|].
      eapply Forall_impl; [exact Hy|]. intros z Hz.
      unfold key_le in *. eauto using le_trans.
    + constructor; [done|].
      rewrite insert_by_perm. constructor; [|done].
      apply not_le_lt in Hxy. unfold key_le. apply le_cases. by right.
Qed.

Lemma sorted_by_sorted (l : list A) : StronglySorted (key_le key) (sorted_by key l).
Proof.
  induction l as [|x l IH]; simpl; [constructor|].
  by apply insert_by_sorted.
Qed.

Lemma sorted_by_elem (x : A) (l : list A) : x ∈ sorted_by key l ↔ x ∈ l.
Proof. by rewrite sorted_by_perm. Qed.
End sorting.

(** Sorting a duplicate-free list of strings gives a strictly increasing
    list. *)
Lemma sorted_strict (l : list string) :
  NoDup l → StronglySorted lt (sorted l).
Proof.
  intros Hnd. unfold sorted.
  assert (NoDup (sorted_by id l)) as Hnd' by by rewrite sorted_by_perm.
  pose proof (sorted_by_sorted id l) as Hs.
  remember (sorted_by id l) as l0 eqn:Hl0. clear Hl0.
  induction Hs as [|x l' Hl' IH Hx]; [constructor|].
  apply NoDup_cons in Hnd' as [Hx' Hnd'].
  constructor; [by apply IH|].
  apply Forall_forall. intros y Hy.
  rewrite Forall_forall in Hx. specialize (Hx y Hy).
  unfold key_le in Hx. simpl in Hx.
  apply le_cases in Hx as [->|Hx]; [|done]. done.
Qed.

End PyStrFacts.

(* ================================================================== *)
(** * Properties of the menu items *)
(* ================================================================== *)

Module MenuFacts.
Import PyStr PyStrFacts Menu.
Local Open Scope list_scope.

(** Induction on the tree of a menu item. *)
Lemma MenuItem_tree_ind (P : MenuItem → Prop) :
  (∀ m, Forall P (children m) → P m) → ∀ m, P m.
Proof.
  intros Hstep. fix IH 1. intros m. apply Hstep.
  destruct m as [c t u f cs a d e tpl ch]. simpl.
  induction ch as [|x ch IHch]; constructor; [apply IH|apply IHch].
Qed.

Lemma is_selected_unfold (req : HttpRequest) (m : MenuItem) :
  is_selected req m =
  String.eqb (url m) (get_full_path req)
  || (0 <? List.length (List.filter (is_selected req) (children m)))%nat.
Proof. by destruct m. Qed.

Lemma filter_nonempty {A} (f : A → bool) (l : list A) :
  (0 <? List.length (List.filter f l))%nat = true ↔ ∃ x, x ∈ l ∧ f x = true.
Proof.
  rewrite Nat.ltb_lt. split.
  - intros Hlen. destruct (List.filter f l) as [|x l'] eqn:Hf; [simpl in Hlen; lia|].
    assert (In x (List.filter f l)) as Hin by (rewrite Hf; by left).
    apply filter_In in Hin as [Hin Hfx]. exists x.
    by rewrite list_elem_of_In.
  - intros (x & Hin & Hfx).
    assert (In x (List.filter f l)) as Hin'.
    { apply filter_In. by rewrite <- list_elem_of_In. }
    destruct (List.filter f l); [done|simpl; lia].
Qed.

(** The recursive reading: own url, or some child that is selected. *)
Lemma is_selected_step (req : HttpRequest) (m : MenuItem) :
  is_selected req m = true ↔
  url m = get_full_path req ∨ ∃ c, c ∈ children m ∧ is_selected req c = true.
Proof.
  rewrite is_selected_unfold, orb_true_iff, String.eqb_eq, filter_nonempty.
  done.
Qed.

(** C6. [is_selected] answers true exactly for an item whose url is the
    full path of the request, and for every item that has such an item
    below it, at any depth; it answers false for all others. *)
Theorem C6_is_selected_spec (req : HttpRequest) (m : MenuItem) :
  is_selected req m = true ↔
  url m = get_full_path req
  ∨ ∃ d, descendant d m ∧ url d = get_full_path req.
Proof.
  induction m as [m IH] using MenuItem_tree_ind.
  rewrite is_selected_step. rewrite Forall_forall in IH. split.
  - intros [Hown|(c & Hc & Hsel)]; [by left|right].
    apply (IH c Hc) in Hsel as [Hown|(d & Hd & Hurl)].
    + exists c. split; [by constructor|done].
    + exists d. split; [by econstructor 2|done].
  - intros [Hown|(d & Hd & Hurl)]; [by left|right].
    induction Hd as [c m Hc|d c m Hd IHd Hc].
    + exists c. split; [done|]. apply is_selected_step. by left.
    + exists c. split; [done|]. apply (IH c Hc). right. by exists d.
Qed.

Lemma children_set_kwarg (m : MenuItem) (kv : string * string) :
  children (set_kwarg m kv) = children m ∧ cls (set_kwarg m kv) = cls m.
Proof.
  destruct kv as [k v]. unfold set_kwarg.
  repeat (case String.eqb; [done|]). done.
Qed.

Lemma fold_set_kwarg (kw : list (string * string)) (m : MenuItem) :
  children (fold_left set_kwarg kw m) = children m
  ∧ cls (fold_left set_kwarg kw m) = cls m.
Proof.
  revert m. induction kw as [|kv kw IH]; intros m; simpl; [done|].
  destruct (IH (set_kwarg m kv)) as [-> ->]. apply children_set_kwarg.
Qed.

Lemma MenuItem_init_children c t u kw : children (MenuItem_init c t u kw) = [].
Proof. unfold MenuItem_init. by rewrite (proj1 (fold_set_kwarg _ _)). Qed.

Lemma MenuItem_init_cls c t u kw : cls (MenuItem_init c t u kw) = c.
Proof. unfold MenuItem_init. by rewrite (proj2 (fold_set_kwarg _ _)). Qed.

Lemma length_zero_iff {A} (l : list A) : (List.length l =? 0)%nat = true ↔ l = [].
Proof. rewrite Nat.eqb_eq. by destruct l. Qed.

(** C7. [is_empty] of a plain [MenuItem] is false whatever its children,
    also when it has none.  [is_empty] of an [AppList] or a [ModelList] is
    true exactly when the child list is empty: it is true on a new item
    made without keywords and stays true when [init_with_context] finds no
    visible model, it is false once a child has been appended, and true
    again once the children have been cleared. *)
Theorem C7_is_empty_spec (m c : MenuItem) (t : option string) (p : Patterns)
    (app_verbose_name : string → string)
    (_get_admin_app_list_url _get_admin_change_url : Model → Context → string)
    (MENU_EXTRA_DETAILS : gmap string (gmap string string))
    (context : Context) :
  let nothing_visible : Patterns → HttpRequest → list (Model * gmap string bool)
    := λ _ _, [] in
  let init := init_with_context nothing_visible app_verbose_name
                _get_admin_app_list_url _get_admin_change_url
                MENU_EXTRA_DETAILS in
  match cls m with
  | PlainItem =>
      is_empty m = false ∧ is_empty (set_children m []) = false
  | AppListItem _ | ModelListItem _ =>
      (is_empty m = true ↔ children m = [])
      ∧ is_empty (append_child m c) = false
      ∧ is_empty (set_children (append_child m c) []) = true
  end
  ∧ is_empty (AppList_init t p []) = true
  ∧ is_empty <$> init (AppList_init t p []) context = Some true
  ∧ is_empty (append_child (AppList_init t p []) c) = false
  ∧ is_empty (set_children (append_child (AppList_init t p []) c) []) = true
  ∧ is_empty (ModelList_init t p []) = true
  ∧ is_empty <$> init (ModelList_init t p []) context = Some true
  ∧ is_empty (append_child (ModelList_init t p []) c) = false
  ∧ is_empty (set_children (append_child (ModelList_init t p []) c) []) = true.
Proof.
  intros nothing_visible init.
  assert (∀ x : MenuItem, cls x ≠ PlainItem →
            (is_empty x = true ↔ children x = [])
            ∧ is_empty (append_child x c) = false
            ∧ is_empty (set_children (append_child x c) []) = true) as Hlist.
  { intros x Hx. unfold is_empty, append_child, set_children. simpl.
    destruct (cls x); [done| |]; rewrite length_zero_iff;
      (split; [done|]); (split; [|done]);
      rewrite length_app; simpl; apply Nat.eqb_neq; lia. }
  split.
  - destruct (cls m) eqn:Hm.
    + unfold is_empty, set_children. simpl. by rewrite Hm.
    + apply Hlist. by rewrite Hm.
    + apply Hlist. by rewrite Hm.
  - destruct (Hlist (AppList_init t p [])) as (Ha1 & Ha2 & Ha3); [done|].
    destruct (Hlist (ModelList_init t p [])) as (Hm1 & Hm2 & Hm3); [done|].
    repeat split; done.
Qed.

Lemma children_set_children (m : MenuItem) (cs : list MenuItem) :
  children (set_children m cs) = cs.
Proof. done. Qed.

Lemma set_children_twice (m : MenuItem) (cs cs' : list MenuItem) :
  set_children (set_children m cs) cs' = set_children m cs'.
Proof. done. Qed.

Lemma set_children_id (m : MenuItem) : set_children m (children m) = m.
Proof. by destruct m. Qed.

Lemma append_child_set (m : MenuItem) (cs : list MenuItem) (c : MenuItem) :
  append_child (set_children m cs) c = set_children m (cs ++ [c]).
Proof. done. Qed.

Lemma has_access_permitted (it : Model * gmap string bool) :
  has_change it → has_access it.2 = Some (permitted it).
Proof.
  intros [b Hb]. unfold permitted, has_access. by rewrite Hb.
Qed.

Lemma permitted_models_cons it items :
  permitted_models (it :: items) =
  if permitted it then it.1 :: permitted_models items
  else permitted_models items.
Proof. unfold permitted_models. simpl. by destruct (permitted it). Qed.

Section with_registry.
Variable _visible_models :
  Patterns → HttpRequest → list (Model * gmap string bool).
Variable app_verbose_name : string → string.
Variable _get_admin_app_list_url : Model → Context → string.
Variable _get_admin_change_url : Model → Context → string.
Variable MENU_EXTRA_DETAILS : gmap string (gmap string string).

Abbreviation model_entry := (model_entry _get_admin_change_url).
Abbreviation entry_dict := (entry_dict _get_admin_change_url).
Abbreviation expected_app_dict :=
  (expected_app_dict _get_admin_change_url app_verbose_name
     _get_admin_app_list_url).
Abbreviation add_models := (add_models _get_admin_change_url).
Abbreviation collect_models :=
  (collect_models app_verbose_name _get_admin_app_list_url
     _get_admin_change_url).
Abbreviation app_menu_item := (app_menu_item MENU_EXTRA_DETAILS).
Abbreviation emit_apps := (emit_apps MENU_EXTRA_DETAILS).

(** *** [ModelList] *)

Lemma add_models_spec context self items :
  Forall has_change items →
  add_models context self items =
  Some (set_children self
          (children self ++ map (model_entry context) (permitted_models items))).
Proof.
  revert self. induction items as [|it items IH]; intros self Hch; simpl.
  - unfold permitted_models. simpl.
    by rewrite app_nil_r, set_children_id.
  - apply Forall_cons in Hch as [Hit Hch].
    unfold add_model. destruct it as [model perms].
    pose proof (has_access_permitted _ Hit) as Ha. simpl in Ha. rewrite Ha.
    rewrite permitted_models_cons. simpl.
    destruct (permitted (model, perms)); simpl.
    + rewrite (IH _ Hch). unfold append_child.
      rewrite children_set_children, set_children_twice.
      by rewrite <- app_assoc.
    + by rewrite (IH _ Hch).
Qed.

(** *** [AppList]: the first loop *)

Lemma models_of_app_snoc a ms m :
  models_of_app a (ms ++ [m]) =
  models_of_app a ms ++ (if String.eqb (app_label m) a then [m] else []).
Proof. unfold models_of_app. by rewrite List.filter_app. Qed.

Lemma expected_app_dict_snoc_other context a ms m :
  app_label m ≠ a →
  expected_app_dict context a (ms ++ [m]) = expected_app_dict context a ms.
Proof.
  intros Hne. unfold Menu.expected_app_dict.
  rewrite models_of_app_snoc.
  apply String.eqb_neq in Hne. by rewrite Hne, app_nil_r.
Qed.

Lemma collect_model_spec context apps it seen :
  has_change it →
  (∀ a, apps !! a = expected_app_dict context a seen) →
  ∃ apps',
    Menu.collect_model app_verbose_name _get_admin_app_list_url
      _get_admin_change_url context apps it = Some apps'
    ∧ ∀ a, apps' !! a =
           expected_app_dict context a (seen ++ permitted_models [it]).
Proof.
  intros Hit Hinv. unfold collect_model. destruct it as [model perms].
  pose proof (has_access_permitted _ Hit) as Ha. simpl in Ha. rewrite Ha.
  rewrite permitted_models_cons. simpl.
  destruct (permitted (model, perms)); simpl.
  2:{ exists apps. split; [done|]. intros a.
      unfold permitted_models. simpl. by rewrite app_nil_r. }
  unfold permitted_models at 1. simpl.
  pose proof (Hinv (app_label model)) as Hlab.
  unfold Menu.expected_app_dict in Hlab.
  destruct (models_of_app (app_label model) seen) as [|m0 rest] eqn:Hms.
  - rewrite Hlab. rewrite lookup_insert_eq. simpl. eexists. split; [done|].
    intros a. destruct (decide (app_label model = a)) as [<-|Hne].
    + rewrite lookup_insert_eq. unfold Menu.expected_app_dict.
      rewrite models_of_app_snoc, Hms, String.eqb_refl. done.
    + rewrite !lookup_insert_ne by done.
      by rewrite expected_app_dict_snoc_other.
  - rewrite Hlab. rewrite Hlab. simpl. eexists. split; [done|].
    intros a. destruct (decide (app_label model = a)) as [<-|Hne].
    + rewrite lookup_insert_eq. unfold Menu.expected_app_dict.
      rewrite models_of_app_snoc, Hms, String.eqb_refl. simpl.
      by rewrite map_app.
    + rewrite !lookup_insert_ne by done.
      by rewrite expected_app_dict_snoc_other.
Qed.

Lemma permitted_models_app l1 l2 :
  permitted_models (l1 ++ l2) = permitted_models l1 ++ permitted_models l2.
Proof. unfold permitted_models. by rewrite List.filter_app, map_app. Qed.

Lemma collect_models_spec context apps items seen :
  Forall has_change items →
  (∀ a, apps !! a = expected_app_dict context a seen) →
  ∃ apps',
    collect_models context apps items = Some apps'
    ∧ ∀ a, apps' !! a =
           expected_app_dict context a (seen ++ permitted_models items).
Proof.
  revert apps seen.
  induction items as [|it items IH]; intros apps seen Hch Hinv; simpl.
  - exists apps. split; [done|]. intros a.
    unfold permitted_models. simpl. by rewrite app_nil_r.
  - apply Forall_cons in Hch as [Hit Hch].
    destruct (collect_model_spec context apps it seen Hit Hinv)
      as (apps1 & -> & Hinv1). simpl.
    destruct (IH apps1 _ Hch Hinv1) as (apps2 & -> & Hinv2).
    exists apps2. split; [done|]. intros a. rewrite Hinv2.
    change (it :: items) with ([it] ++ items).
    by rewrite (permitted_models_app [it] items), app_assoc.
Qed.

(** *** [AppList]: the second loop *)

Lemma fold_append_child {A} (f : A → MenuItem) (l : list A) (item : MenuItem) :
  fold_left (λ item x, append_child item (f x)) l item =
  set_children item (children item ++ map f l).
Proof.
  revert item. induction l as [|x l IH]; intros item; simpl.
  - by rewrite app_nil_r, set_children_id.
  - rewrite IH. unfold append_child.
    rewrite children_set_children, set_children_twice.
    by rewrite <- app_assoc.
Qed.

Lemma app_menu_item_children a d :
  children (app_menu_item a d) =
  map model_menu_item (sorted_by md_title (ad_models d)).
Proof.
  unfold Menu.app_menu_item. rewrite fold_append_child.
  by rewrite children_set_children, MenuItem_init_children.
Qed.

Lemma model_menu_item_entry context m :
  model_menu_item (entry_dict context m) = model_entry context m.
Proof. done. Qed.

Lemma insert_by_map {A B} (f : A → B) (key : B → string) x l :
  insert_by key (f x) (map f l) = map f (insert_by (key ∘ f) x l).
Proof.
  induction l as [|y l IH]; simpl; [done|].
  destruct (String.leb (key (f x)) (key (f y))); simpl; [done|].
  by rewrite IH.
Qed.

Lemma sorted_by_map {A B} (f : A → B) (key : B → string) l :
  sorted_by key (map f l) = map f (sorted_by (key ∘ f) l).
Proof.
  induction l as [|x l IH]; simpl; [done|].
  by rewrite IH, insert_by_map.
Qed.

(** The children of the item of an application: the entries of its
    models, sorted by plural name. *)
Lemma app_menu_item_entries context a ms d :
  expected_app_dict context a ms = Some d →
  children (app_menu_item a d) =
  map (model_entry context)
    (sorted_by verbose_name_plural (models_of_app a ms)).
Proof.
  unfold Menu.expected_app_dict.
  destruct (models_of_app a ms) as [|m0 rest] eqn:Hms; [done|].
  intros [= <-]. rewrite app_menu_item_children. cbn [ad_models].
  change (entry_dict context m0 :: map (entry_dict context) rest)
    with (map (entry_dict context) (m0 :: rest)).
  rewrite sorted_by_map, map_map. done.
Qed.

Lemma emit_apps_spec apps keys :
  Forall (λ a, is_Some (apps !! a)) keys →
  ∃ groups,
    (∀ self, emit_apps apps keys self =
             Some (set_children self (children self ++ groups)))
    ∧ Forall2 (λ a g, ∃ d, apps !! a = Some d ∧ g = app_menu_item a d)
        keys groups.
Proof.
  induction keys as [|a keys IH]; intros Hk; simpl.
  - exists []. split; [|done]. intros self.
    by rewrite app_nil_r, set_children_id.
  - apply Forall_cons in Hk as [[d Hd] Hk]. rewrite Hd. simpl.
    destruct (IH Hk) as (groups & Hemit & Hg).
    exists (app_menu_item a d :: groups). split.
    + intros self. rewrite Hemit. unfold append_child.
      rewrite children_set_children, set_children_twice.
      by rewrite <- app_assoc.
    + constructor; [by exists d|done].
Qed.

Lemma expected_app_dict_some context a ms :
  is_Some (expected_app_dict context a ms) ↔ models_of_app a ms ≠ [].
Proof.
  unfold Menu.expected_app_dict.
  destruct (models_of_app a ms); split; done.
Qed.

(** What [AppList.init_with_context] appends: one item per application
    that has a permitted model, the applications in increasing order of
    their label. *)
Lemma AppList_spec p context :
  let items := _visible_models p (request context) in
  let ms := permitted_models items in
  Forall has_change items →
  ∃ labels groups,
    (∀ self,
       AppList_init_with_context _visible_models app_verbose_name
         _get_admin_app_list_url _get_admin_change_url MENU_EXTRA_DETAILS
         p self context = Some (set_children self (children self ++ groups)))
    ∧ StronglySorted lt labels
    ∧ (∀ a, a ∈ labels ↔ models_of_app a ms ≠ [])
    ∧ Forall2 (λ a g, ∃ d, expected_app_dict context a ms = Some d
                           ∧ g = app_menu_item a d) labels groups.
Proof.
  intros items ms Hch. unfold AppList_init_with_context. fold items.
  destruct (collect_models_spec context ∅ items [] Hch)
    as (apps & Happs & Hinv).
  { intros a. by rewrite lookup_empty. }
  simpl in Hinv. fold ms in Hinv. rewrite Happs. simpl.
  set (keys := map fst (map_to_list apps)).
  assert (∀ a, a ∈ sorted keys ↔ is_Some (apps !! a)) as Hkeys.
  { intros a. unfold sorted. rewrite sorted_by_elem. unfold keys.
    rewrite list_elem_of_fmap. split.
    - intros ([a' d] & -> & Hin). apply elem_of_map_to_list in Hin.
      by exists d.
    - intros [d Hd]. exists (a, d). split; [done|].
      by apply elem_of_map_to_list. }
  destruct (emit_apps_spec apps (sorted keys)) as (groups & Hemit & Hg).
  { apply Forall_forall. intros a Ha. by apply Hkeys. }
  exists (sorted keys), groups. split; [done|]. split; [|split].
  - apply sorted_strict. apply NoDup_fst_map_to_list.
  - intros a. by rewrite Hkeys, Hinv, expected_app_dict_some.
  - eapply Forall2_impl; [exact Hg|]. intros a g (d & Hd & ->).
    exists d. by rewrite <- Hinv.
Qed.

Lemma models_of_app_elem a ms m :
  m ∈ models_of_app a ms ↔ m ∈ ms ∧ app_label m = a.
Proof.
  unfold models_of_app.
  by rewrite !list_elem_of_In, filter_In, String.eqb_eq.
Qed.

Lemma models_of_app_nonempty a ms :
  models_of_app a ms ≠ [] ↔ ∃ m, m ∈ ms ∧ app_label m = a.
Proof.
  split.
  - destruct (models_of_app a ms) as [|m l] eqn:Hms; [done|]. intros _.
    exists m. apply models_of_app_elem. rewrite Hms. by left.
  - intros (m & Hm) Hnil. apply models_of_app_elem in Hm.
    rewrite Hnil in Hm. by apply not_elem_of_nil in Hm.
Qed.




(** *** The two lists hold the same models *)







End with_registry.

(** *** The visibility of a model *)

Lemma NoDup_map_inj {A B} (f : A → B) (l : list A) (x y : A) :
  NoDup (map f l) → x ∈ l → y ∈ l → f x = f y → x = y.
Proof.
  induction l as [|z l IH]; simpl; intros Hnd Hx Hy Hf.
  - by apply not_elem_of_nil in Hx.
  - apply NoDup_cons in Hnd as [Hz Hnd].
    apply elem_of_cons in Hx as [->|Hx]; apply elem_of_cons in Hy as [->|Hy].
    + done.
    + exfalso. apply Hz. rewrite Hf. apply list_elem_of_fmap. by exists y.
    + exfalso. apply Hz. rewrite <- Hf. apply list_elem_of_fmap. by exists x.
    + by apply IH.
Qed.

Section visibility.
Variable fnmatch : string → string → bool.
Variable registry : list Model.
Variable has_perm : string → Model → string → bool.
Variable app_verbose_name : string → string.
Variable _get_admin_app_list_url : Model → Context → string.
Variable _get_admin_change_url : Model → Context → string.
Variable MENU_EXTRA_DETAILS : gmap string (gmap string string).

Abbreviation visible_models := (visible_models fnmatch registry has_perm).
Abbreviation is_visible := (is_visible fnmatch has_perm).
Abbreviation model_entry := (model_entry _get_admin_change_url).

Lemma visible_models_has_change p req :
  Forall has_change (visible_models p req).
Proof.
  unfold Menu.visible_models. apply Forall_forall. intros it Hit.
  apply list_elem_of_fmap in Hit as (m & -> & _).
  unfold has_change, model_perms. simpl. by rewrite lookup_insert_eq.
Qed.

Lemma permitted_model_perms req m :
  permitted (m, model_perms has_perm req m) =
  has_perm (user req) m "change" || has_perm (user req) m "view".
Proof.
  unfold permitted, has_access, model_perms. simpl.
  rewrite lookup_insert_eq. simpl.
  rewrite lookup_insert_ne by done. by rewrite lookup_insert_eq.
Qed.

Lemma permitted_visible p req m :
  m ∈ permitted_models (visible_models p req) ↔
  m ∈ registry ∧ is_visible p req m = true.
Proof.
  unfold permitted_models, Menu.visible_models, Menu.is_visible.
  rewrite list_elem_of_fmap. split.
  - intros ([m' perms] & -> & Hin). simpl.
    apply list_elem_of_In, filter_In in Hin as [Hin Hperm].
    apply list_elem_of_In, list_elem_of_fmap in Hin as (m & [= -> ->] & Hm).
    rewrite permitted_model_perms in Hperm.
    apply list_elem_of_In, filter_In in Hm as [Hm Hvis].
    rewrite <- list_elem_of_In in Hm. split; [done|].
    rewrite Hperm. simpl. done.
  - intros [Hm Hvis]. exists (m, model_perms has_perm req m).
    split; [done|].
    rewrite <- andb_assoc in Hvis. apply andb_true_iff in Hvis as [Hperm Hpat].
    apply list_elem_of_In, filter_In. split.
    + apply list_elem_of_In, list_elem_of_fmap. exists m. split; [done|].
      apply list_elem_of_In, filter_In. by rewrite <- list_elem_of_In.
    + by rewrite permitted_model_perms.
Qed.

(** C1. In the menu that a new [AppList], made without keywords, builds
    for the principal of the request, a registered model shows as a grandchild under the item of
    its application exactly when the principal may change or view it, its
    dotted name matches an inclusion pattern (or there is none) and it
    matches no exclusion pattern.  The links of the registered models are
    taken to be pairwise different. *)
Theorem C1_applist_visibility title p context M :
  NoDup (map (λ m, _get_admin_change_url m context) registry) →
  M ∈ registry →
  ∃ out,
    AppList_init_with_context visible_models app_verbose_name
      _get_admin_app_list_url _get_admin_change_url MENU_EXTRA_DETAILS
      p (AppList_init title p []) context = Some out
    ∧ (in_app_group _get_admin_change_url registry context M out
       ↔ is_visible p (request context) M = true).
Proof.
  intros Hurl HM.
  pose proof (visible_models_has_change p (request context)) as Hch.
  destruct (AppList_spec visible_models app_verbose_name
              _get_admin_app_list_url _get_admin_change_url
              MENU_EXTRA_DETAILS p context Hch)
    as (labels & groups & Hrun & Hs & Hl & Hg).
  set (ms := permitted_models (visible_models p (request context))) in *.
  eexists. split; [apply Hrun|].
  unfold in_app_group. rewrite children_set_children.
  change (children (AppList_init title p [])) with (@nil MenuItem). simpl.
  assert (∀ a g, (∃ d, expected_app_dict _get_admin_change_url
                        app_verbose_name _get_admin_app_list_url
                        context a ms = Some d
                      ∧ g = app_menu_item MENU_EXTRA_DETAILS a d) →
            ∀ c, c ∈ children g ↔
                 ∃ m, m ∈ ms ∧ app_label m = a ∧ c = model_entry context m)
    as Hgroup.
  { intros a g (d & Hd & ->) c.
    rewrite (app_menu_item_entries _ _ _ _ context a ms d Hd).
    rewrite list_elem_of_fmap. split.
    - intros (m & -> & Hm). exists m.
      apply sorted_by_elem, models_of_app_elem in Hm as [Hm Ha]. done.
    - intros (m & Hm & Ha & ->). exists m. split; [done|].
      by apply sorted_by_elem, models_of_app_elem. }
  split.
  - intros (g & Hgin & HMg & _).
    apply list_elem_of_lookup in Hgin as [i Hi].
    destruct (Forall2_lookup_r _ _ _ _ _ Hg Hi) as (a & Hai & Ha).
    destruct (proj1 (Hgroup a g Ha _) HMg) as (m & Hm & Hma & Heq).
    apply permitted_visible in Hm as [Hm Hvis].
    assert (M = m) as ->; [|done].
    apply (NoDup_map_inj (λ m, _get_admin_change_url m context) registry);
      [done..|].
    by injection Heq.
  - intros Hvis.
    assert (M ∈ ms) as HMs by by apply permitted_visible.
    assert (app_label M ∈ labels) as Hlab.
    { apply Hl, models_of_app_nonempty. by exists M. }
    apply list_elem_of_lookup in Hlab as [i Hi].
    destruct (Forall2_lookup_l _ _ _ _ _ Hg Hi) as (g & Hgi & Ha).
    exists g. split; [by eapply list_elem_of_lookup_2|]. split.
    + apply (Hgroup _ g Ha). by exists M.
    + intros c Hc.
      destruct (proj1 (Hgroup _ g Ha _) Hc) as (m & Hm & Hma & ->).
      exists m. apply permitted_visible in Hm as [Hm _]. done.
Qed.
End visibility.

(** *** The statements on the sample site *)

Ltac by_evaluation := apply (bool_decide_unpack _); vm_compute; exact I.

Lemma C1_applist_visibility_witness :
  NoDup (map (λ m, Sample.admin_change_url m Sample.as_clerk) Sample.registry)
  ∧ Sample.uom_model ∈ Sample.registry
  ∧ ∃ out,
      AppList_init_with_context Sample.visible_models Sample.app_verbose_name
        Sample.admin_app_list_url Sample.admin_change_url
        Sample.MENU_EXTRA_DETAILS Sample.no_contrib
        (AppList_init (Some "Applications") Sample.no_contrib [])
        Sample.as_clerk = Some out
      ∧ (in_app_group Sample.admin_change_url Sample.registry Sample.as_clerk
           Sample.uom_model out
         ↔ is_visible Sample.fnmatch Sample.has_perm Sample.no_contrib
             (request Sample.as_clerk) Sample.uom_model = true).
Proof.
  assert (NoDup (map (λ m, Sample.admin_change_url m Sample.as_clerk)
                   Sample.registry)) as H1 by by_evaluation.
  assert (Sample.uom_model ∈ Sample.registry) as H2 by by_evaluation.
  split; [exact H1|]. split; [exact H2|].
  exact (C1_applist_visibility Sample.fnmatch Sample.registry Sample.has_perm
           Sample.app_verbose_name Sample.admin_app_list_url
           Sample.admin_change_url Sample.MENU_EXTRA_DETAILS
           (Some "Applications") Sample.no_contrib Sample.as_clerk
           Sample.uom_model H1 H2).
Defined.




(** On the sample site, with the exclusion pattern ["django.contrib.*"] and
    no inclusion pattern, no model of that name space is listed, also for
    the principal that may do everything. *)
Example no_contrib_model_list :
  (λ out, map title (children out)) <$>
    Sample.init_with_context
      (ModelList_init (Some "Models") Sample.no_contrib []) Sample.as_admin
  = Some ["Units of measure"; "Payrolls"; "Extra fees"].
Proof. vm_compute. reflexivity. Qed.

Example app_list_groups :
  (λ out, map (λ g, (title g, map title (children g))) (children out)) <$>
    Sample.init_with_context
      (AppList_init (Some "Applications") Sample.all_models []) Sample.as_admin
  = Some [ ("Application auth", ["Groups"; "Users"]);
           ("Application extrafee", ["Extra fees"]);
           ("Application payroll", ["Payrolls"]);
           ("Units", ["Units of measure"]) ].
Proof. vm_compute. reflexivity. Qed.

End MenuFacts.

(* ================================================================== *)
(** * Properties of the seed command *)
(* ================================================================== *)

Module SeedFacts.
Import PyStr Seed.
Local Open Scope list_scope.

(** ** Runs of steps *)

Lemma for_each_run {A} (body : A → M unit) (xs : list A) (t : gmap Z UOM) :
  for_each body xs t = run (map body xs) t.
Proof.
  revert t. induction xs as [|x xs IH]; intros t; [done|].
  unfold run in *. simpl. unfold bind. destruct (body x t) as [[e|[]] t1]; [done|].
  apply IH.
Qed.

Lemma run_app (fs gs : list (M unit)) (t : gmap Z UOM) :
  run (fs ++ gs) t = bind (run fs) (λ _, run gs) t.
Proof.
  revert t. induction fs as [|f fs IH]; intros t.
  - done.
  - unfold run in *. simpl. unfold bind in *.
    destruct (f t) as [[e|[]] t1]; [done|]. apply IH.
Qed.

Lemma run_cons (f : M unit) (fs : list (M unit)) (t : gmap Z UOM) :
  run (f :: fs) t =
  match f t with
  | (inr _, t1) => run fs t1
  | (inl e, t1) => (inl e, t1)
  end.
Proof. done. Qed.

Lemma run_keeps_stable (f : M unit) (fs : list (M unit)) t r t' :
  Forall (keeps f) fs → Forall quiet_failure fs →
  stable f t → run fs t = (r, t') → stable f t'.
Proof.
  revert t. induction fs as [|g fs IH]; intros t Hk Hq Hst Hrun.
  - by injection Hrun as _ <-.
  - apply Forall_cons in Hk as [Hg Hk]. apply Forall_cons in Hq as [Hgq Hq].
    rewrite run_cons in Hrun. destruct (g t) as [[e|[]] t1] eqn:Hgt.
    + injection Hrun as _ <-. by rewrite (Hgq _ _ _ Hgt).
    + apply (IH t1); [done..| |done]. by apply (Hg t).
Qed.

(** After a run without exception every step is stable. *)
Lemma run_all_stable (fs : list (M unit)) t t' :
  Forall settles fs → Forall quiet_failure fs → compatible fs →
  run fs t = (inr (), t') → Forall (λ f, stable f t') fs.
Proof.
  revert t. induction fs as [|f fs IH]; intros t Hs Hq Hc Hrun; [done|].
  apply Forall_cons in Hs as [Hf Hs]. apply Forall_cons in Hq as [Hfq Hq].
  destruct Hc as [Hk Hc]. rewrite run_cons in Hrun.
  destruct (f t) as [[e|[]] t1] eqn:Hft; [done|]. constructor.
  - apply (run_keeps_stable f fs t1 (inr ())); [done..| |done]. by apply (Hf t).
  - by apply (IH t1).
Qed.

(** A second run ends as the first one did, on the same table. *)
Lemma run_twice (fs : list (M unit)) t r t' :
  Forall settles fs → Forall quiet_failure fs → compatible fs →
  run fs t = (r, t') → run fs t' = (r, t').
Proof.
  revert t. induction fs as [|f fs IH]; intros t Hs Hq Hc Hrun.
  - by injection Hrun as <- <-.
  - apply Forall_cons in Hs as [Hf Hs]. apply Forall_cons in Hq as [Hfq Hq].
    destruct Hc as [Hk Hc]. rewrite run_cons in Hrun.
    destruct (f t) as [[e|[]] t1] eqn:Hft.
    + injection Hrun as <- <-. rewrite run_cons.
      pose proof (Hfq _ _ _ Hft) as ->. by rewrite Hft.
    + assert (stable f t') as Hst.
      { apply (run_keeps_stable f fs t1 r); [done..| |done]. by apply (Hf t). }
      rewrite run_cons, Hst. by apply (IH t1).
Qed.

(** ** The queries *)

Lemma select_elem (P : UOM → bool) (t : gmap Z UOM) (k : Z) (r : UOM) :
  (k, r) ∈ select P t ↔ t !! k = Some r ∧ P r = true.
Proof.
  unfold select. rewrite list_elem_of_In, filter_In, <- list_elem_of_In.
  by rewrite elem_of_map_to_list.
Qed.

Lemma select_NoDup (P : UOM → bool) (t : gmap Z UOM) : NoDup (select P t).
Proof.
  unfold select. apply NoDup_ListNoDup, List.NoDup_filter, NoDup_ListNoDup.
  apply NoDup_map_to_list.
Qed.

Lemma select_nil (P : UOM → bool) (t : gmap Z UOM) :
  select P t = [] ↔ ∀ k r, t !! k = Some r → P r = false.
Proof.
  split.
  - intros Hnil k r Hk. destruct (P r) eqn:HP; [|done].
    assert ((k, r) ∈ select P t) as Hin by by apply select_elem.
    rewrite Hnil in Hin. by apply not_elem_of_nil in Hin.
  - intros Hno. destruct (select P t) as [|[k r] l] eqn:Hsel; [done|].
    assert ((k, r) ∈ select P t) as Hin by (rewrite Hsel; by left).
    apply select_elem in Hin as [Hk HP]. rewrite (Hno k r Hk) in HP. done.
Qed.

Lemma select_one (P : UOM → bool) (t : gmap Z UOM) (k : Z) (r : UOM) :
  select P t = [(k, r)] ↔ unique_row P t k r.
Proof.
  unfold unique_row. split.
  - intros Hsel.
    assert (∀ k' r', (k', r') ∈ select P t → (k', r') = (k, r)) as Hall.
    { intros k' r'. rewrite Hsel. by intros ->%list_elem_of_singleton. }
    assert ((k, r) ∈ select P t) as Hin by (rewrite Hsel; by left).
    apply select_elem in Hin as [Hk HP]. split; [done|]. split; [done|].
    intros k' r' Hk' HP'. by injection (Hall k' r' (proj2 (select_elem _ _ _ _)
                                                   (conj Hk' HP'))).
  - intros (Hk & HP & Huniq).
    pose proof (select_NoDup P t) as Hnd.
    assert ((k, r) ∈ select P t) as Hin by by apply select_elem.
    assert (∀ x, x ∈ select P t → x = (k, r)) as Hall.
    { intros [k' r'] [Hk' HP']%select_elem.
      pose proof (Huniq k' r' Hk' HP') as ->. congruence. }
    destruct (select P t) as [|x [|y l]].
    + by apply not_elem_of_nil in Hin.
    + by rewrite (Hall x) by by left.
    + exfalso. apply NoDup_cons in Hnd as [Hx _]. apply Hx.
      rewrite (Hall x) by by left.
      rewrite (Hall y) by (right; by left). by left.
Qed.

Lemma objects_get_table (P : UOM → bool) t res t' :
  objects_get P t = (res, t') → t' = t.
Proof.
  unfold objects_get. destruct (select P t) as [|x [|y l]]; by intros [= _ <-].
Qed.

Lemma objects_get_found (P : UOM → bool) t k r :
  unique_row P t k r → objects_get P t = (inr (k, r), t).
Proof. intros Hu%select_one. unfold objects_get. by rewrite Hu. Qed.

Lemma objects_get_found_inv (P : UOM → bool) t obj t' :
  objects_get P t = (inr obj, t') → unique_row P t obj.1 obj.2 ∧ t' = t.
Proof.
  unfold objects_get. destruct (select P t) as [|x [|y l]] eqn:Hsel; try done.
  intros [= <- <-]. split; [|done]. apply select_one. by destruct x.
Qed.

Lemma objects_get_missing (P : UOM → bool) t t' :
  objects_get P t = (inl DoesNotExist, t') → select P t = [].
Proof.
  unfold objects_get. by destruct (select P t) as [|x [|y l]].
Qed.

Lemma unique_row_agree (P : UOM → bool) t k r k' r' :
  unique_row P t k r → unique_row P t k' r' → k' = k ∧ r' = r.
Proof.
  intros (Hk & HP & Hu) (Hk' & HP' & _).
  pose proof (Hu k' r' Hk' HP') as ->. split; congruence.
Qed.

(** A new row that the filter rejects does not disturb the selection. *)
Lemma unique_row_insert_other (P : UOM → bool) t k r k' new :
  unique_row P t k r → t !! k' = None → P new = false →
  unique_row P (<[k' := new]> t) k r.
Proof.
  intros (Hk & HP & Hu) Hfree Hnew. split; [|split; [done|]].
  - rewrite lookup_insert_ne; [done|]. congruence.
  - intros k2 r2. destruct (decide (k' = k2)) as [<-|Hne].
    + rewrite lookup_insert_eq. intros [= <-]. congruence.
    + rewrite lookup_insert_ne by done. apply Hu.
Qed.

(** Rewriting a row into one that the filter treats alike keeps the key of
    the selection. *)
Lemma unique_row_update (P : UOM → bool) t k r k2 r2 r2' :
  unique_row P t k r → t !! k2 = Some r2 → P r2' = P r2 →
  unique_row P (<[k2 := r2']> t) k (if decide (k = k2) then r2' else r).
Proof.
  intros (Hk & HP & Hu) Hk2 HP2. split; [|split].
  - destruct (decide (k = k2)) as [->|Hne].
    + by rewrite lookup_insert_eq.
    + by rewrite lookup_insert_ne.
  - destruct (decide (k = k2)) as [->|Hne]; [|done].
    rewrite HP2. congruence.
  - intros k3 r3. destruct (decide (k2 = k3)) as [<-|Hne].
    + rewrite lookup_insert_eq. intros [= <-] HP3. apply (Hu k2 r2); congruence.
    + rewrite lookup_insert_ne by done. apply Hu.
Qed.

(** ** The two steps of the command *)

Section steps.
Variable unique_code : bool.

Abbreviation upsert := (upsert unique_code).

Lemma fresh_key_free (t : gmap Z UOM) : t !! fresh (dom t) = None.
Proof. apply not_elem_of_dom, is_fresh. Qed.

(** What a successful first-loop step has done: it found the one row with
    the code and the name and left the table alone, or it found none and
    added the row. *)
Lemma upsert_done uom t t' :
  upsert uom t = (inr (), t') →
  (∃ k r, unique_row (by_code_name (s_code uom) (s_name uom)) t k r ∧ t' = t)
  ∨ (select (by_code_name (s_code uom) (s_name uom)) t = []
     ∧ t' = <[fresh (dom t) := mkUOM (s_code uom) (s_name uom) None]> t).
Proof.
  unfold Seed.upsert, update_or_create, bind, get_or_create.
  destruct (objects_get _ t) as [[e|obj] t1] eqn:Hget.
  - pose proof (objects_get_table _ _ _ _ Hget) as ->.
    destruct e; try done.
    apply objects_get_missing in Hget as Hnil.
    unfold objects_create. destruct (unique_code && _).
    + rewrite Hget. done.
    + simpl. unfold ret. intros [= <-]. by right.
  - apply objects_get_found_inv in Hget as [Hu ->]. simpl.
    unfold save, ret. intros [= <-]. left. exists obj.1, obj.2.
    split; [done|]. apply insert_id, Hu.
Qed.

Lemma upsert_quiet uom : quiet_failure (upsert uom).
Proof.
  intros t e t'. unfold Seed.upsert, update_or_create, bind, get_or_create.
  destruct (objects_get _ t) as [[e1|obj] t1] eqn:Hget.
  - pose proof (objects_get_table _ _ _ _ Hget) as ->.
    destruct e1; try by intros [= _ <-].
    unfold objects_create. destruct (unique_code && _).
    + rewrite Hget. by intros [= _ <-].
    + done.
  - done.
Qed.

Lemma upsert_stable_iff uom t :
  stable (upsert uom) t ↔
  ∃ k r, unique_row (by_code_name (s_code uom) (s_name uom)) t k r.
Proof.
  unfold stable. split.
  - intros [(k & r & Hu & _)|[_ Heq]]%upsert_done; [by exists k, r|].
    exfalso. pose proof (fresh_key_free t) as Hfree.
    pose proof (lookup_insert_eq t (fresh (dom t))
                  (mkUOM (s_code uom) (s_name uom) None)) as Hnew.
    rewrite <- Heq in Hnew. congruence.
  - intros (k & r & Hu).
    unfold Seed.upsert, update_or_create, bind, get_or_create.
    rewrite (objects_get_found _ _ _ _ Hu). simpl. unfold save, ret. simpl.
    by rewrite (insert_id t k r) by apply Hu.
Qed.

Lemma by_code_name_refl c n b : by_code_name c n (mkUOM c n b) = true.
Proof. unfold by_code_name. simpl. by rewrite !String.eqb_refl. Qed.

Lemma upsert_settles uom : settles (upsert uom).
Proof.
  intros t t' [(k & r & Hu & ->)|[Hnil ->]]%upsert_done;
    apply upsert_stable_iff.
  - by exists k, r.
  - exists (fresh (dom t)), (mkUOM (s_code uom) (s_name uom) None).
    split; [by rewrite lookup_insert_eq|]. split; [apply by_code_name_refl|].
    intros k' r'. destruct (decide (fresh (dom t) = k')) as [<-|Hne]; [done|].
    rewrite lookup_insert_ne by done. intros Hk' HP'.
    rewrite select_nil in Hnil. by rewrite (Hnil k' r' Hk') in HP'.
Qed.

Lemma upsert_keeps_upsert uom uom' : keeps (upsert uom) (upsert uom').
Proof.
  intros t t' (k & r & Hu)%upsert_stable_iff
    [(k' & r' & Hu' & ->)|[Hnil ->]]%upsert_done; apply upsert_stable_iff.
  - by exists k, r.
  - exists k, r. apply unique_row_insert_other; [done|apply fresh_key_free|].
    destruct (by_code_name (s_code uom) (s_name uom)
                (mkUOM (s_code uom') (s_name uom') None)) eqn:HP; [|done].
    unfold by_code_name in HP. simpl in HP.
    apply andb_true_iff in HP as [Hc%String.eqb_eq Hn%String.eqb_eq].
    destruct Hu as (Hk & HPr & _). rewrite select_nil in Hnil.
    rewrite Hc, Hn in Hnil. by rewrite (Hnil k r Hk) in HPr.
Qed.

(** What a successful second-loop step has done. *)
Lemma resolve_done uom t t' :
  resolve_base uom t = (inr (), t') →
  ∃ k r,
    unique_row (by_code (s_code uom)) t k r
    ∧ match target uom with
      | None => t' = t
      | Some b =>
          ∃ kb rb, unique_row (by_code b) t kb rb
                   ∧ t' = <[k := mkUOM (code r) (name r) (Some kb)]> t
      end.
Proof.
  unfold resolve_base, target, bind.
  destruct (objects_get _ t) as [[e|obj] t1] eqn:Hget; [done|].
  apply objects_get_found_inv in Hget as [Hu ->].
  intros Hrun. exists obj.1, obj.2. split; [done|].
  destruct (s_base_uom uom) as [b|]; [|by injection Hrun as <-].
  destruct (truthy b); [|by injection Hrun as <-].
  destruct (objects_get (by_code b) t) as [[e|base] t1] eqn:Hgetb; [done|].
  apply objects_get_found_inv in Hgetb as [Hub ->].
  exists base.1, base.2. split; [done|]. by injection Hrun as <-.
Qed.

Lemma resolve_quiet uom : quiet_failure (resolve_base uom).
Proof.
  intros t e t'. unfold resolve_base, bind.
  destruct (objects_get _ t) as [[e1|obj] t1] eqn:Hget.
  - pose proof (objects_get_table _ _ _ _ Hget) as ->. by intros [= _ <-].
  - pose proof (objects_get_table _ _ _ _ Hget) as ->.
    destruct (s_base_uom uom) as [b|]; [|done].
    destruct (truthy b); [|done].
    destruct (objects_get (by_code b) t) as [[e2|base] t1] eqn:Hgetb; [|done].
    pose proof (objects_get_table _ _ _ _ Hgetb) as ->. by intros [= _ <-].
Qed.

Lemma resolve_stable_iff uom t :
  stable (resolve_base uom) t ↔
  ∃ k r,
    unique_row (by_code (s_code uom)) t k r
    ∧ ∀ b, target uom = Some b →
           ∃ kb rb, unique_row (by_code b) t kb rb ∧ base_uom_id r = Some kb.
Proof.
  unfold stable. split.
  - intros (k & r & Hu & Hrest)%resolve_done. exists k, r. split; [done|].
    intros b Hb. rewrite Hb in Hrest. destruct Hrest as (kb & rb & Hub & Heq).
    exists kb, rb. split; [done|].
    pose proof (lookup_insert_eq t k (mkUOM (code r) (name r) (Some kb))) as Hk.
    rewrite <- Heq in Hk. destruct Hu as (Hk' & _). rewrite Hk' in Hk.
    by injection Hk as ->.
  - intros (k & r & Hu & Hrest).
    unfold resolve_base, bind. rewrite (objects_get_found _ _ _ _ Hu).
    unfold target in Hrest. destruct (s_base_uom uom) as [b|]; [|done].
    destruct (truthy b); [|done].
    destruct (Hrest b eq_refl) as (kb & rb & Hub & Hbase).
    rewrite (objects_get_found _ _ _ _ Hub). unfold save. simpl.
    rewrite insert_id; [done|]. destruct Hu as (Hk & _). rewrite Hk.
    destruct r as [c n base]. simpl in *. by rewrite Hbase.
Qed.

Lemma resolve_settles uom : settles (resolve_base uom).
Proof.
  intros t t' (k & r & Hu & Hrest)%resolve_done. apply resolve_stable_iff.
  destruct (target uom) as [b|] eqn:Hb.
  - destruct Hrest as (kb & rb & Hub & ->).
    destruct Hu as (Hk & HP & Huniq).
    pose proof (unique_row_update _ t k r k r
                  (mkUOM (code r) (name r) (Some kb))
                  (conj Hk (conj HP Huniq)) Hk eq_refl) as Hu'.
    rewrite decide_True in Hu' by done.
    pose proof (unique_row_update _ t kb rb k r
                  (mkUOM (code r) (name r) (Some kb)) Hub Hk eq_refl) as Hub'.
    eexists _, _. split; [exact Hu'|]. intros b' [= <-].
    eexists _, _. split; [exact Hub'|done].
  - subst t'. exists k, r. split; [done|]. intros b' Hb'. done.
Qed.

(** A second-loop step writes the base unit of one row and nothing else. *)
Lemma resolve_writes uom t t' :
  resolve_base uom t = (inr (), t') →
  t' = t
  ∨ ∃ k r kb, t !! k = Some r ∧ by_code (s_code uom) r = true
              ∧ t' = <[k := mkUOM (code r) (name r) (Some kb)]> t.
Proof.
  intros (k & r & (Hk & HP & _) & Hrest)%resolve_done.
  destruct (target uom) as [b|]; [right|by left].
  destruct Hrest as (kb & rb & _ & ->). by exists k, r, kb.
Qed.

Lemma resolve_keeps_upsert uom uom' :
  keeps (upsert uom) (resolve_base uom').
Proof.
  intros t t' (k & r & Hu)%upsert_stable_iff
    [->|(k' & r' & kb & Hk' & _ & ->)]%resolve_writes;
    apply upsert_stable_iff; [by exists k, r|].
  eexists _, _. by eapply unique_row_update.
Qed.

Lemma resolve_keeps_resolve uom uom' :
  s_code uom ≠ s_code uom' →
  keeps (resolve_base uom) (resolve_base uom').
Proof.
  intros Hne t t' (k & r & Hu & Hrest)%resolve_stable_iff
    [->|(k' & r' & kb' & Hk' & HP' & ->)]%resolve_writes;
    apply resolve_stable_iff; [by exists k, r|].
  assert (k ≠ k') as Hkk.
  { intros ->. destruct Hu as (Hk & HP & _).
    rewrite Hk in Hk'. injection Hk' as ->.
    unfold by_code in HP, HP'.
    apply String.eqb_eq in HP, HP'. congruence. }
  pose proof (unique_row_update _ t k r k' r'
                (mkUOM (code r') (name r') (Some kb')) Hu Hk' eq_refl) as Hu'.
  rewrite decide_False in Hu' by done.
  exists k, r. split; [done|]. intros b Hb.
  destruct (Hrest b Hb) as (kb & rb & Hub & Hbase).
  eexists _, _. split; [|done].
  by eapply unique_row_update.
Qed.

(** ** The two loops together *)

Lemma seed_all_run data t :
  seed_all unique_code data t =
  run (map upsert data ++ map resolve_base data) t.
Proof.
  rewrite run_app. unfold seed_all, pass_one, pass_two, bind.
  rewrite for_each_run. destruct (run (map upsert data) t) as [[e|[]] t1]; [done|].
  apply for_each_run.
Qed.

Lemma steps_settle data :
  Forall settles (map upsert data ++ map resolve_base data).
Proof.
  apply Forall_app. split; apply Forall_fmap, Forall_forall; intros uom _.
  - apply upsert_settles.
  - apply resolve_settles.
Qed.

Lemma steps_quiet data :
  Forall quiet_failure (map upsert data ++ map resolve_base data).
Proof.
  apply Forall_app. split; apply Forall_fmap, Forall_forall; intros uom _.
  - apply upsert_quiet.
  - apply resolve_quiet.
Qed.

Lemma compatible_app (fs gs : list (M unit)) :
  compatible fs → compatible gs →
  Forall (λ f, Forall (keeps f) gs) fs →
  compatible (fs ++ gs).
Proof.
  induction fs as [|f fs IH]; intros Hf Hg Hfg; simpl; [done|].
  destruct Hf as [Hk Hf]. apply Forall_cons in Hfg as [Hfgs Hfg].
  split; [by apply Forall_app|by apply IH].
Qed.

Lemma steps_compatible data :
  NoDup (map s_code data) →
  compatible (map upsert data ++ map resolve_base data).
Proof.
  intros Hnd. apply compatible_app.
  - clear Hnd. induction data as [|uom data IH]; simpl; [done|].
    split; [|done]. apply Forall_fmap, Forall_forall. intros uom' _.
    apply upsert_keeps_upsert.
  - induction data as [|uom data IH]; simpl; [done|].
    apply NoDup_cons in Hnd as [Hnew Hnd]. split; [|by apply IH].
    apply Forall_fmap, Forall_forall. intros uom' Hin.
    apply resolve_keeps_resolve. intros Heq. apply Hnew.
    rewrite Heq. apply list_elem_of_fmap. by exists uom'.
  - apply Forall_fmap, Forall_forall. intros uom _.
    apply Forall_fmap, Forall_forall. intros uom' _.
    apply resolve_keeps_upsert.
Qed.

(** Running the two loops again ends as the first run did, on the table the
    first run left. *)
Lemma seed_all_twice data t r t' :
  NoDup (map s_code data) →
  seed_all unique_code data t = (r, t') →
  seed_all unique_code data t' = (r, t').
Proof.
  intros Hnd. rewrite !seed_all_run.
  apply run_twice; [apply steps_settle|apply steps_quiet|by apply steps_compatible].
Qed.

(** After the two loops every base unit is resolved. *)
Lemma seed_all_resolved data t t' :
  NoDup (map s_code data) →
  seed_all unique_code data t = (inr (), t') →
  Forall (resolved t') data.
Proof.
  intros Hnd. rewrite seed_all_run. intros Hrun.
  pose proof (run_all_stable _ _ _ (steps_settle data) (steps_quiet data)
                (steps_compatible data Hnd) Hrun) as Hall.
  apply Forall_app in Hall as [_ Hall]. rewrite Forall_fmap in Hall.
  eapply Forall_impl; [exact Hall|]. intros uom Hst. simpl in Hst.
  apply resolve_stable_iff in Hst as (k & r & Hu & Hrest).
  intros b Hb. destruct (Hrest b Hb) as (kb & rb & Hub & Hbase).
  by exists k, r, kb, rb.
Qed.

(** ** A run on a table that holds none of the codes *)

Lemma upsert_creates uom t :
  (∀ k r, t !! k = Some r → code r ≠ s_code uom) →
  upsert uom t =
  (inr (), <[fresh (dom t) := mkUOM (s_code uom) (s_name uom) None]> t).
Proof.
  intros Hclean.
  assert (select (by_code_name (s_code uom) (s_name uom)) t = []) as Hnil.
  { apply select_nil. intros k r Hk. unfold by_code_name.
    apply andb_false_iff. left. apply String.eqb_neq. by apply (Hclean k). }
  unfold Seed.upsert, update_or_create, bind, get_or_create, objects_get.
  rewrite Hnil. unfold objects_create.
  assert (forallb (λ kv : Z * UOM, negb (by_code (s_code uom) kv.2))
            (map_to_list t) = true) as ->.
  { apply forallb_forall. intros [k r] Hin%list_elem_of_In%elem_of_map_to_list.
    simpl. apply negb_true_iff, String.eqb_neq. by apply (Hclean k). }
  by rewrite andb_false_r.
Qed.

Lemma by_code_other c c' n b : c' ≠ c → by_code c (mkUOM c' n b) = false.
Proof. intros Hne. unfold by_code. simpl. by apply String.eqb_neq. Qed.

Lemma pass_one_fresh data t :
  NoDup (map s_code data) →
  (∀ k r, t !! k = Some r → code r ∉ map s_code data) →
  ∃ t',
    pass_one unique_code data t = (inr (), t')
    ∧ (∀ uom, uom ∈ data → ∃ k r, unique_row (by_code (s_code uom)) t' k r)
    ∧ (∀ c k r, c ∉ map s_code data →
                unique_row (by_code c) t k r → unique_row (by_code c) t' k r).
Proof.
  revert t. induction data as [|uom data IH]; intros t Hnd Hclean.
  - exists t. split; [done|]. split; [|done].
    intros uom Hin. by apply not_elem_of_nil in Hin.
  - simpl in Hnd. apply NoDup_cons in Hnd as [Hnew Hnd].
    set (new := mkUOM (s_code uom) (s_name uom) None).
    set (t1 := <[fresh (dom t) := new]> t).
    assert (upsert uom t = (inr (), t1)) as Hstep.
    { apply upsert_creates. intros k r Hk Heq. apply (Hclean k r Hk).
      rewrite Heq. by left. }
    destruct (IH t1 Hnd) as (t' & Hrun & Hrows & Hkeep).
    { intros k r. unfold t1. destruct (decide (fresh (dom t) = k)) as [<-|Hne].
      - rewrite lookup_insert_eq. by intros [= <-].
      - rewrite lookup_insert_ne by done. intros Hk Hin.
        apply (Hclean k r Hk). by right. }
    exists t'. split; [|split].
    + unfold pass_one in *. simpl. unfold bind. by rewrite Hstep.
    + intros uom' [->|Hin]%elem_of_cons; [|by apply Hrows].
      exists (fresh (dom t)), new. apply Hkeep; [done|].
      split; [by apply lookup_insert_eq|]. split; [apply String.eqb_refl|].
      intros k' r'. unfold t1.
      destruct (decide (fresh (dom t) = k')) as [<-|Hne]; [done|].
      rewrite lookup_insert_ne by done. intros Hk' HP'. exfalso.
      apply (Hclean k' r' Hk'). apply String.eqb_eq in HP'. rewrite HP'.
      by left.
    + intros c k r Hc Hu. apply Hkeep.
      * intros Hin. apply Hc. by right.
      * apply unique_row_insert_other; [done|apply fresh_key_free|].
        apply by_code_other. intros <-. apply Hc. by left.
Qed.

Lemma pass_two_runs data (codes : list string) t :
  (∀ c, c ∈ codes → ∃ k r, unique_row (by_code c) t k r) →
  (∀ uom, uom ∈ data →
          s_code uom ∈ codes ∧ ∀ b, target uom = Some b → b ∈ codes) →
  ∃ t', pass_two data t = (inr (), t').
Proof.
  revert t. induction data as [|uom data IH]; intros t Hrows Hclosed.
  - by exists t.
  - destruct (Hclosed uom) as [Hc Hb]; [by left|].
    destruct (Hrows _ Hc) as (k & r & Hu).
    assert (∃ t1, resolve_base uom t = (inr (), t1)) as [t1 Hstep].
    { unfold resolve_base, bind. rewrite (objects_get_found _ _ _ _ Hu).
      unfold target in Hb. destruct (s_base_uom uom) as [b|]; [|by eexists].
      destruct (truthy b); [|by eexists].
      destruct (Hrows b (Hb b eq_refl)) as (kb & rb & Hub).
      rewrite (objects_get_found _ _ _ _ Hub). by eexists. }
    destruct (IH t1) as [t' Hrun].
    + intros c Hin. destruct (Hrows c Hin) as (kc & rc & Huc).
      apply resolve_writes in Hstep
        as [->|(k' & r' & kb' & Hk' & _ & ->)]; [by exists kc, rc|].
      eexists _, _. by eapply unique_row_update.
    + intros uom' Hin. apply Hclosed. by right.
    + exists t'. unfold pass_two in *. simpl. unfold bind. by rewrite Hstep.
Qed.

(** On an empty table the two loops run to their end, for every seed list
    whose codes are pairwise different and whose base units are codes of
    the list. *)
Lemma seed_all_fresh data :
  NoDup (map s_code data) →
  (∀ uom b, uom ∈ data → target uom = Some b → b ∈ map s_code data) →
  ∃ t', seed_all unique_code data ∅ = (inr (), t').
Proof.
  intros Hnd Hclosed.
  destruct (pass_one_fresh data ∅ Hnd) as (t1 & Hone & Hrows & _).
  { intros k r. by rewrite lookup_empty. }
  destruct (pass_two_runs data (map s_code data) t1) as [t' Htwo].
  - intros c (uom & -> & Hin)%list_elem_of_fmap. by apply Hrows.
  - intros uom Hin. split.
    + apply list_elem_of_fmap. by exists uom.
    + intros b. by apply Hclosed.
  - exists t'. unfold seed_all, bind. by rewrite Hone.
Qed.

(** ** The command *)

Lemma handle_creative (t : gmap Z UOM) :
  handle unique_code {[ "business_type" := "CREATIVE" ]} t =
  match seed_all unique_code CREATIVE t with
  | (inr _, t') => (inr "Successfully created UOM objects.", t')
  | (inl e, t') => (inl e, t')
  end.
Proof.
  unfold handle, bind, getitem, uom_data, ret.
  rewrite !lookup_singleton_eq. simpl. done.
Qed.

Lemma run_command_creative (t : gmap Z UOM) :
  run_command unique_code ["CREATIVE"] t =
  handle unique_code {[ "business_type" := "CREATIVE" ]} t.
Proof. done. Qed.

Lemma CREATIVE_codes_NoDup : NoDup (map s_code CREATIVE).
Proof. apply (bool_decide_unpack _). vm_compute. exact I. Qed.

Lemma CREATIVE_closed uom b :
  uom ∈ CREATIVE → target uom = Some b → b ∈ map s_code CREATIVE.
Proof.
  intros Hin Hb.
  assert (forallb (λ uom, match target uom with
                          | Some b => bool_decide (b ∈ map s_code CREATIVE)
                          | None => true
                          end) CREATIVE = true) as Hall
    by (vm_compute; reflexivity).
  rewrite forallb_forall in Hall.
  apply list_elem_of_In, Hall in Hin. rewrite Hb in Hin.
  by apply bool_decide_eq_true in Hin.
Qed.

End steps.

(** C3. Running the command with [CREATIVE] a second time changes nothing:
    whatever the table was before the first run, the second run ends as the
    first one did and leaves the table of the first run, row by row.  On an
    empty table the first run succeeds and leaves the fifteen units. *)
Theorem C3_seed_twice_changes_nothing (unique_code : bool) (t : gmap Z UOM) :
  run_command unique_code ["CREATIVE"]
    (run_command unique_code ["CREATIVE"] t).2
  = run_command unique_code ["CREATIVE"] t
  ∧ ∃ t1,
      run_command unique_code ["CREATIVE"] ∅
      = (inr "Successfully created UOM objects.", t1)
      ∧ size t1 = 15.
Proof.
  split.
  - rewrite !run_command_creative, !handle_creative.
    destruct (seed_all unique_code CREATIVE t) as [r t'] eqn:Hrun.
    assert (seed_all unique_code CREATIVE t' = (r, t')) as Hagain
      by (eapply seed_all_twice; [apply CREATIVE_codes_NoDup|exact Hrun]).
    destruct r as [e|[]]; simpl; by rewrite Hagain.
  - destruct unique_code; eexists; split; vm_compute; reflexivity.
Qed.

(** C5. Whatever the order in which the entries of the seed list are
    written, the command run on an empty table reaches its end, and after
    its second loop every entry that names a base unit has it resolved: the
    one row with the code of the entry refers to the one row with the code
    of the base unit.  The same holds after every run that reaches its end,
    whatever the table was before. *)
Theorem C5_base_units_resolved (unique_code : bool) (data : list seed) :
  data ≡ₚ CREATIVE →
  (∃ t', seed_all unique_code data ∅ = (inr (), t')
         ∧ Forall (resolved t') data)
  ∧ ∀ t t', seed_all unique_code data t = (inr (), t') →
            Forall (resolved t') data.
Proof.
  intros Hperm.
  assert (NoDup (map s_code data)) as Hnd.
  { rewrite Hperm. apply CREATIVE_codes_NoDup. }
  assert (∀ uom b, uom ∈ data → target uom = Some b → b ∈ map s_code data)
    as Hclosed.
  { intros uom b Hin Hb. rewrite Hperm in Hin |- *.
    by apply (CREATIVE_closed uom). }
  split.
  - destruct (seed_all_fresh unique_code data Hnd Hclosed) as [t' Hrun].
    exists t'. split; [done|]. by eapply seed_all_resolved.
  - intros t t' Hrun. by eapply seed_all_resolved.
Qed.

Lemma C5_base_units_resolved_witness :
  rev CREATIVE ≡ₚ CREATIVE
  ∧ (∃ t', seed_all true (rev CREATIVE) ∅ = (inr (), t')
           ∧ Forall (resolved t') (rev CREATIVE))
  ∧ ∀ t t', seed_all true (rev CREATIVE) t = (inr (), t') →
            Forall (resolved t') (rev CREATIVE).
Proof.
  assert (rev CREATIVE ≡ₚ CREATIVE) as H1
    by (symmetry; apply Permutation_rev).
  split; [exact H1|].
  exact (C5_base_units_resolved true (rev CREATIVE) H1).
Defined.




(** C4. The first loop looks a row up by code and name together.  On a
    table that holds the code [UOM_PIECE] under another name it does not
    update that row: when the code is unique the insert is refused and the
    run stops at once; when it is not, the loop adds a second row with the
    code, the old one keeps its name, and the second loop stops on the two
    rows. *)
Theorem C4_pass_one_on_renamed_unit :
  let t0 : gmap Z UOM := {[ 1%Z := mkUOM "UOM_PIECE" "Piece" None ]} in
  pass_one true CREATIVE t0 = (inl IntegrityError, t0)
  ∧ (pass_one false CREATIVE t0).1 = inr ()
  ∧ (pass_one false CREATIVE t0).2 !! 1%Z
    = Some (mkUOM "UOM_PIECE" "Piece" None)
  ∧ List.length (select (by_code "UOM_PIECE") (pass_one false CREATIVE t0).2)
    = 2%nat
  ∧ (run_command false ["CREATIVE"] t0).1 = inl MultipleObjectsReturned.
Proof. repeat split; vm_compute; reflexivity. Qed.

End SeedFacts.

(* ================================================================== *)
(** * Further properties of the menu items *)
(* ================================================================== *)

Module MenuExtras.
Import PyStr PyStrFacts Menu MenuFacts.
Local Open Scope list_scope.

Lemma filter_length_existsb {A} (f : A → bool) (l : list A) :
  (0 <? List.length (List.filter f l))%nat = existsb f l.
Proof.
  induction l as [|x l IH]; simpl; [done|].
  destruct (f x); simpl; [done|]. exact IH.
Qed.

(** X1. [is_selected] is the disjunction of the test on the own url and of
    [is_selected] over all children, in whatever order they are visited;
    appending a child adds its answer to the disjunction. *)
Theorem X1_is_selected_any (req : HttpRequest) (m c : MenuItem) :
  is_selected req m
  = String.eqb (url m) (get_full_path req)
    || existsb (is_selected req) (children m)
  ∧ is_selected req (append_child m c)
    = is_selected req m || is_selected req c.
Proof.
  assert (∀ x, is_selected req x
               = String.eqb (url x) (get_full_path req)
                 || existsb (is_selected req) (children x)) as Hany.
  { intros x. by rewrite is_selected_unfold, filter_length_existsb. }
  split; [apply Hany|].
  rewrite (Hany (append_child m c)), (Hany m).
  unfold append_child. simpl. rewrite existsb_app. simpl.
  by rewrite orb_false_r, orb_assoc.
Qed.

Section with_registry.
Variable _visible_models :
  Patterns → HttpRequest → list (Model * gmap string bool).
Variable app_verbose_name : string → string.
Variable _get_admin_app_list_url : Model → Context → string.
Variable _get_admin_change_url : Model → Context → string.
Variable MENU_EXTRA_DETAILS : gmap string (gmap string string).

Abbreviation AppList_run :=
  (AppList_init_with_context _visible_models app_verbose_name
     _get_admin_app_list_url _get_admin_change_url MENU_EXTRA_DETAILS).
Abbreviation ModelList_run :=
  (ModelList_init_with_context _visible_models _get_admin_change_url).
Abbreviation run_init :=
  (init_with_context _visible_models app_verbose_name
     _get_admin_app_list_url _get_admin_change_url MENU_EXTRA_DETAILS).
Abbreviation model_entry := (model_entry _get_admin_change_url).
Abbreviation expected_app_dict :=
  (expected_app_dict _get_admin_change_url app_verbose_name
     _get_admin_app_list_url).
Abbreviation app_menu_item := (app_menu_item MENU_EXTRA_DETAILS).

(** *** A permission dictionary without the key ["change"] *)

Lemma has_access_none (perms : gmap string bool) :
  has_access perms = None ↔ perms !! "change" = None.
Proof. unfold has_access. by destruct (perms !! "change"). Qed.

Lemma add_models_raises context self items :
  Exists (λ it, ¬ has_change it) items →
  add_models _get_admin_change_url context self items = None.
Proof.
  revert self. induction items as [|it items IH]; intros self Hex.
  - by apply Exists_nil in Hex.
  - simpl. unfold add_model. destruct it as [model perms].
    destruct (has_access perms) as [ok|] eqn:Hacc; simpl; [|done].
    apply Exists_cons in Hex as [Hit|Hex].
    + exfalso. apply Hit. unfold has_change. simpl.
      destruct (perms !! "change") eqn:Hp; [by eexists|].
      apply has_access_none in Hp. congruence.
    + destruct (negb ok); by apply IH.
Qed.

Lemma collect_models_raises context apps items :
  Exists (λ it, ¬ has_change it) items →
  collect_models app_verbose_name _get_admin_app_list_url
    _get_admin_change_url context apps items = None.
Proof.
  revert apps. induction items as [|it items IH]; intros apps Hex.
  - by apply Exists_nil in Hex.
  - simpl.
    destruct (collect_model app_verbose_name _get_admin_app_list_url
                _get_admin_change_url context apps it) as [apps'|] eqn:Hstep;
      simpl; [|done].
    apply Exists_cons in Hex as [Hit|Hex]; [|by apply IH].
    exfalso. apply Hit. unfold collect_model in Hstep.
    destruct it as [model perms]. unfold has_change. simpl.
    destruct (perms !! "change") eqn:Hp; [by eexists|].
    apply has_access_none in Hp. by rewrite Hp in Hstep.
Qed.

(** X2. [init_with_context] of an [AppList] and of a [ModelList] raise
    [KeyError] exactly when some entry of the visibility query has a
    permission dictionary without the key ["change"], whatever that
    dictionary says under ["view"]. *)
Theorem X2_missing_change_key p self context :
  let items := _visible_models p (request context) in
  (AppList_run p self context = None ↔ ¬ Forall has_change items)
  ∧ (ModelList_run p self context = None ↔ ¬ Forall has_change items).
Proof.
  intros items. split; split.
  - intros Hnone Hch.
    destruct (AppList_spec _visible_models app_verbose_name
                _get_admin_app_list_url _get_admin_change_url
                MENU_EXTRA_DETAILS p context Hch)
      as (labels & groups & Hrun & _).
    by rewrite Hrun in Hnone.
  - intros Hex%not_Forall_Exists; [|apply _].
    unfold AppList_init_with_context. fold items.
    by rewrite collect_models_raises.
  - intros Hnone Hch. unfold ModelList_init_with_context in Hnone.
    fold items in Hnone. by rewrite add_models_spec in Hnone.
  - intros Hex%not_Forall_Exists; [|apply _].
    unfold ModelList_init_with_context. fold items.
    by apply add_models_raises.
Qed.

(** *** The item of an application *)




(** *** Models of the same plural name *)





(** *** [is_empty] after [init_with_context] *)

Lemma existsb_filter_nil {A} (f : A → bool) (l : list A) :
  existsb f l = false ↔ List.filter f l = [].
Proof.
  induction l as [|x l IH]; simpl; [done|].
  destruct (f x); simpl; [done|]. exact IH.
Qed.

(** X6. On a new [AppList] or [ModelList] made without keywords,
    [is_empty] after [init_with_context] is true exactly when no entry of
    the visibility query passes the permission test. *)
Theorem X6_empty_after_init t p context :
  let items := _visible_models p (request context) in
  Forall has_change items →
  is_empty <$> run_init (AppList_init t p []) context
  = Some (negb (existsb permitted items))
  ∧ is_empty <$> run_init (ModelList_init t p []) context
    = Some (negb (existsb permitted items)).
Proof.
  intros items Hch. split.
  - change (run_init (AppList_init t p []) context)
      with (AppList_run p (AppList_init t p []) context).
    destruct (AppList_spec _visible_models app_verbose_name
                _get_admin_app_list_url _get_admin_change_url
                MENU_EXTRA_DETAILS p context Hch)
      as (labels & groups & Hrun & _ & Hl & Hg).
    rewrite Hrun. simpl. f_equal. unfold is_empty. simpl.
    apply Forall2_length in Hg. rewrite <- Hg.
    destruct (existsb permitted items) eqn:Hex; simpl.
    + apply Nat.eqb_neq. intros Hnil. apply length_zero_iff_nil in Hnil.
      assert (List.filter permitted items ≠ []) as Hne.
      { intros Hf%existsb_filter_nil. fold items in Hf. congruence. }
      destruct (List.filter permitted items) as [|it l] eqn:Hf; [done|].
      apply (not_elem_of_nil (app_label it.1)). rewrite <- Hnil.
      apply Hl, models_of_app_nonempty. exists it.1. split; [|done].
      unfold permitted_models. fold items. rewrite Hf. by left.
    + apply Nat.eqb_eq. apply existsb_filter_nil in Hex.
      destruct labels as [|a labels]; [done|]. exfalso.
      assert (a ∈ a :: labels) as Ha by by left.
      apply Hl, models_of_app_nonempty in Ha as (m & Hm & _).
      unfold permitted_models in Hm. fold items in Hm.
      rewrite Hex in Hm. by apply not_elem_of_nil in Hm.
  - change (run_init (ModelList_init t p []) context)
      with (ModelList_run p (ModelList_init t p []) context).
    unfold ModelList_init_with_context. fold items.
    rewrite add_models_spec by done. simpl. f_equal. unfold is_empty. simpl.
    rewrite length_map. unfold permitted_models. rewrite length_map.
    destruct (existsb permitted items) eqn:Hex; simpl.
    + apply Nat.eqb_neq. intros Hnil%length_zero_iff_nil.
      apply existsb_filter_nil in Hnil. congruence.
    + apply Nat.eqb_eq. apply existsb_filter_nil in Hex. by rewrite Hex.
Qed.

End with_registry.

(** *** The statements on the sample site *)




Lemma X6_empty_after_init_witness :
  let items := Sample.visible_models Sample.no_contrib (request Sample.as_clerk) in
  Forall has_change items
  ∧ is_empty <$> Sample.init_with_context
                   (AppList_init (Some "Applications") Sample.no_contrib [])
                   Sample.as_clerk
    = Some (negb (existsb permitted items))
  ∧ is_empty <$> Sample.init_with_context
                   (ModelList_init (Some "Applications") Sample.no_contrib [])
                   Sample.as_clerk
    = Some (negb (existsb permitted items)).
Proof.
  intros items.
  assert (Forall has_change items) as H1 by by_evaluation.
  split; [exact H1|].
  exact (X6_empty_after_init Sample.visible_models Sample.app_verbose_name
           Sample.admin_app_list_url Sample.admin_change_url
           Sample.MENU_EXTRA_DETAILS (Some "Applications") Sample.no_contrib
           Sample.as_clerk H1).
Defined.

End MenuExtras.

(* ================================================================== *)
(** * Further properties of the seed command *)
(* ================================================================== *)

Module SeedExtras.
Import PyStr Seed SeedFacts.
Local Open Scope list_scope.

Section steps.
Variable unique_code : bool.

Abbreviation handle := (handle unique_code).
Abbreviation creative :=
  ({[ "business_type" := "CREATIVE" ]} : gmap string string).

(** X8. [handle] called with options of its own choosing, the
    [business_type] being an ASCII word when there is one: without a
    [business_type], or with the empty string, it seeds the [CREATIVE] list;
    with a word whose upper case is [CREATIVE] it does the same; with any
    other word it raises [KeyError] on the upper-cased word before it
    touches the table. *)
Theorem X8_handle_business_type (options : gmap string string)
    (t : gmap Z UOM) :
  from_option is_ascii true (options !! "business_type") = true →
  handle options t
  = match options !! "business_type" with
    | None => handle creative t
    | Some word =>
        if truthy word then
          if decide (upper word = "CREATIVE") then handle creative t
          else (inl (KeyError (upper word)), t)
        else handle creative t
    end.
Proof.
  intros _. rewrite handle_creative.
  unfold Seed.handle, bind, getitem, uom_data, ret.
  rewrite lookup_singleton_eq.
  destruct (options !! "business_type") as [word|]; [|done].
  destruct (truthy word); [|done].
  destruct (decide (upper word = "CREATIVE")) as [->|Hne].
  - by rewrite lookup_singleton_eq.
  - by rewrite lookup_singleton_ne.
Qed.

(** *** The first loop only adds rows *)

Lemma upsert_any uom t r t' :
  upsert unique_code uom t = (r, t') →
  t' = t
  ∨ (t !! fresh (dom t) = None
     ∧ t' = <[fresh (dom t) := mkUOM (s_code uom) (s_name uom) None]> t).
Proof.
  destruct r as [e|[]].
  - intros ->%upsert_quiet. by left.
  - intros [(k & row & _ & ->)|[_ ->]]%upsert_done; [by left|right].
    split; [apply fresh_key_free|done].
Qed.

Lemma pass_one_cons uom data t :
  pass_one unique_code (uom :: data) t
  = match upsert unique_code uom t with
    | (inr _, t1) => pass_one unique_code data t1
    | (inl e, t1) => (inl e, t1)
    end.
Proof. done. Qed.

(** X9. Whatever its outcome, the first loop keeps every row that was in
    the table as it was and adds at most one row per seed entry; a row it
    adds carries the code and the name of an entry and no base unit. *)
Theorem X9_pass_one_only_adds (data : list seed) (t : gmap Z UOM) :
  let t' := (pass_one unique_code data t).2 in
  t ⊆ t'
  ∧ (size t' ≤ size t + List.length data)%nat
  ∧ ∀ k row, t' !! k = Some row →
             t !! k = Some row
             ∨ (t !! k = None
                ∧ ∃ uom, uom ∈ data
                         ∧ row = mkUOM (s_code uom) (s_name uom) None).
Proof.
  revert t. induction data as [|uom data IH]; intros t; simpl.
  - split; [done|]. split; [lia|]. intros k row Hk. by left.
  - rewrite pass_one_cons.
    destruct (upsert unique_code uom t) as [[e|[]] t1] eqn:Hstep.
    + apply upsert_quiet in Hstep as ->. simpl.
      split; [done|]. split; [lia|]. intros k row Hk. by left.
    + destruct (IH t1) as (Hsub & Hsize & Hrows).
      apply upsert_any in Hstep as [->|[Hfree ->]].
      * split; [done|]. split; [lia|]. intros k row Hk.
        destruct (Hrows k row Hk) as [?|(? & uom' & ? & ?)]; [by left|right].
        split; [done|]. exists uom'. split; [by right|done].
      * set (new := mkUOM (s_code uom) (s_name uom) None) in *.
        split; [|split].
        -- etrans; [|exact Hsub]. by apply insert_subseteq.
        -- rewrite map_size_insert_None in Hsize by done. lia.
        -- intros k row Hk.
           destruct (Hrows k row Hk) as [Hk1|(Hk1 & uom' & Hin & Hrow)].
           ++ destruct (decide (fresh (dom t) = k)) as [<-|Hne].
              ** rewrite lookup_insert_eq in Hk1. injection Hk1 as <-.
                 right. split; [done|]. exists uom. split; [by left|done].
              ** rewrite lookup_insert_ne in Hk1 by done. by left.
           ++ right. split.
              ** destruct (decide (fresh (dom t) = k)) as [<-|Hne].
                 --- by rewrite lookup_insert_eq in Hk1.
                 --- by rewrite lookup_insert_ne in Hk1.
              ** exists uom'. split; [by right|done].
Qed.

(** *** The second loop only writes base units *)

Lemma pass_two_cons uom data t :
  pass_two (uom :: data) t
  = match resolve_base uom t with
    | (inr _, t1) => pass_two data t1
    | (inl e, t1) => (inl e, t1)
    end.
Proof. done. Qed.

Lemma by_code_eq c r : by_code c r = true ↔ code r = c.
Proof. unfold by_code. apply String.eqb_eq. Qed.

(** X10. Whatever its outcome, the second loop neither adds nor removes a
    row and changes no code and no name.  The base unit of a row stays as it
    was unless an entry of the list with the code of the row names a base
    unit, and then it refers to a row that bears that base code. *)
Theorem X10_pass_two_frame (data : list seed) (t : gmap Z UOM) :
  let t' := (pass_two data t).2 in
  dom t' = dom t
  ∧ ∀ k r, t !! k = Some r →
      ∃ r', t' !! k = Some r'
            ∧ code r' = code r ∧ name r' = name r
            ∧ (base_uom_id r' = base_uom_id r
               ∨ ∃ uom b kb rb,
                   uom ∈ data ∧ s_code uom = code r ∧ target uom = Some b
                   ∧ base_uom_id r' = Some kb
                   ∧ t' !! kb = Some rb ∧ code rb = b).
Proof.
  revert t. induction data as [|uom data IH]; intros t; simpl.
  - split; [done|]. intros k r Hk. exists r. by repeat split; [..|left].
  - rewrite pass_two_cons.
    destruct (resolve_base uom t) as [[e|[]] t1] eqn:Hstep.
    { apply resolve_quiet in Hstep as ->. simpl. split; [done|].
      intros k r Hk. exists r. by repeat split; [..|left]. }
    destruct (IH t1) as (Hdom & Hrows).
    apply resolve_done in Hstep as (k0 & r0 & Hu0 & Hrest).
    destruct (target uom) as [b|] eqn:Hb.
    2:{ subst t1. split; [done|]. intros k r Hk.
        destruct (Hrows k r Hk) as (r' & Hk' & Hc & Hn & Hbase).
        exists r'. repeat split; try done.
        destruct Hbase as [?|(u & b' & kb & rb & Hin & ?)]; [by left|right].
        exists u, b', kb, rb. split; [by right|done]. }
    destruct Hrest as (kb & rb & Hub & ->).
    destruct Hu0 as (Hk0 & HP0%by_code_eq & _).
    destruct Hub as (Hkb & HPb%by_code_eq & _).
    set (r0' := mkUOM (code r0) (name r0) (Some kb)) in *.
    split.
    { rewrite Hdom. apply dom_insert_lookup_L. by eexists. }
    assert (∃ rb1, <[k0 := r0']> t !! kb = Some rb1 ∧ code rb1 = b)
      as (rb1 & Hkb1 & Hcb1).
    { destruct (decide (k0 = kb)) as [->|Hne].
      - exists r0'. rewrite lookup_insert_eq. split; [done|]. simpl. congruence.
      - exists rb. by rewrite lookup_insert_ne. }
    destruct (Hrows kb rb1 Hkb1) as (rb' & Hkb' & Hcb' & _).
    intros k r Hk. destruct (decide (k0 = k)) as [<-|Hne].
    + assert (r = r0) as -> by congruence.
      destruct (Hrows k0 r0') as (r' & Hk' & Hc & Hn & Hbase);
        [by rewrite lookup_insert_eq|].
      exists r'. repeat split; try done.
      right. destruct Hbase as [Hsame|(u & b' & kb2 & rb2 & Hin & Hrest)].
      * exists uom, b, kb, rb'. split; [by left|].
        repeat split; try done. congruence.
      * exists u, b', kb2, rb2. split; [by right|done].
    + destruct (Hrows k r) as (r' & Hk' & Hc & Hn & Hbase);
        [by rewrite lookup_insert_ne|].
      exists r'. repeat split; try done.
      destruct Hbase as [?|(u & b' & kb2 & rb2 & Hin & ?)]; [by left|right].
      exists u, b', kb2, rb2. split; [by right|done].
Qed.

(** *** After a run that reached its end *)

(** X11. After a run of the two loops that raised nothing, over a seed list
    whose codes are pairwise different, every entry has exactly one row with
    its code, and that row carries the name of the entry. *)
Theorem X11_one_row_per_code (data : list seed) (t t' : gmap Z UOM) :
  NoDup (map s_code data) →
  seed_all unique_code data t = (inr (), t') →
  Forall (λ uom, ∃ k r, unique_row (by_code (s_code uom)) t' k r
                        ∧ name r = s_name uom) data.
Proof.
  intros Hnd. rewrite seed_all_run. intros Hrun.
  pose proof (run_all_stable _ _ _ (steps_settle unique_code data)
                (steps_quiet unique_code data)
                (steps_compatible unique_code data Hnd) Hrun) as Hall.
  apply Forall_app in Hall as [Hone Htwo].
  rewrite Forall_fmap in Hone, Htwo. rewrite Forall_forall in Hone, Htwo.
  apply Forall_forall. intros uom Hin.
  specialize (Hone uom Hin). specialize (Htwo uom Hin). simpl in Hone, Htwo.
  apply upsert_stable_iff in Hone as (k1 & r1 & Hk1 & HP1 & _).
  apply resolve_stable_iff in Htwo as (k & r & Hu & _).
  exists k, r. split; [done|].
  unfold by_code_name in HP1.
  apply andb_true_iff in HP1 as [Hc%String.eqb_eq Hn%String.eqb_eq].
  destruct Hu as (Hk & HP & Huniq).
  assert (k1 = k) as -> by (apply (Huniq k1 r1 Hk1); by apply by_code_eq).
  congruence.
Qed.

(** *** A base unit that is not a code of the list *)

Lemma pass_one_fresh_table data t :
  NoDup (map s_code data) →
  (∀ k r, t !! k = Some r → code r ∉ map s_code data) →
  size (pass_one unique_code data t).2 = (size t + List.length data)%nat
  ∧ ∀ k r, (pass_one unique_code data t).2 !! k = Some r →
           t !! k = Some r ∨ code r ∈ map s_code data.
Proof.
  revert t. induction data as [|uom data IH]; intros t Hnd Hclean.
  - simpl. split; [lia|]. intros k r Hk. by left.
  - simpl in Hnd. apply NoDup_cons in Hnd as [Hnew Hnd].
    rewrite pass_one_cons, upsert_creates.
    2:{ intros k r Hk Heq. apply (Hclean k r Hk). rewrite Heq. by left. }
    set (t1 := <[fresh (dom t) := mkUOM (s_code uom) (s_name uom) None]> t).
    destruct (IH t1 Hnd) as [Hsize Hrows].
    { intros k r. unfold t1. destruct (decide (fresh (dom t) = k)) as [<-|Hne].
      - rewrite lookup_insert_eq. by intros [= <-].
      - rewrite lookup_insert_ne by done. intros Hk Hin.
        apply (Hclean k r Hk). by right. }
    split.
    + rewrite Hsize. unfold t1.
      rewrite map_size_insert_None by apply fresh_key_free. simpl. lia.
    + intros k r Hk. destruct (Hrows k r Hk) as [Hk1|Hin].
      * unfold t1 in Hk1. destruct (decide (fresh (dom t) = k)) as [<-|Hne].
        -- rewrite lookup_insert_eq in Hk1. injection Hk1 as <-.
           right. by left.
        -- rewrite lookup_insert_ne in Hk1 by done. by left.
      * right. by right.
Qed.

Lemma resolve_base_eval uom t k r :
  unique_row (by_code (s_code uom)) t k r →
  resolve_base uom t
  = match target uom with
    | None => (inr (), t)
    | Some b =>
        match objects_get (by_code b) t with
        | (inr base, t1) =>
            (inr (), <[k := mkUOM (code r) (name r) (Some base.1)]> t1)
        | (inl e, t1) => (inl e, t1)
        end
    end.
Proof.
  intros Hu. unfold resolve_base, bind, target.
  rewrite (objects_get_found _ _ _ _ Hu).
  destruct (s_base_uom uom) as [b|]; [|done].
  destruct (truthy b); [|done].
  by destruct (objects_get (by_code b) t) as [[e|base] t1].
Qed.

Lemma pass_two_dangling data (codes : list string) t :
  (∀ c, c ∈ codes → ∃ k r, unique_row (by_code c) t k r) →
  (∀ k r, t !! k = Some r → code r ∈ codes) →
  (∀ u, u ∈ data → s_code u ∈ codes) →
  (∃ u b, u ∈ data ∧ target u = Some b ∧ b ∉ codes) →
  ∃ t', pass_two data t = (inl DoesNotExist, t')
        ∧ dom t' = dom t
        ∧ ∀ c, c ∈ codes → ∃ k r, unique_row (by_code c) t' k r.
Proof.
  revert t. induction data as [|uom data IH];
    intros t Hrows Hcodes Hdata (u & b & Hu & Hb & Hdangling).
  - by apply not_elem_of_nil in Hu.
  - destruct (Hrows (s_code uom)) as (k0 & r0 & Hu0); [apply Hdata; by left|].
    rewrite pass_two_cons, (resolve_base_eval uom t k0 r0 Hu0).
    assert (∀ t1, dom t1 = dom t →
              (∀ c, c ∈ codes → ∃ k r, unique_row (by_code c) t1 k r) →
              (∀ k r, t1 !! k = Some r → code r ∈ codes) →
              u ∈ data →
              ∃ t', pass_two data t1 = (inl DoesNotExist, t')
                    ∧ dom t' = dom t
                    ∧ ∀ c, c ∈ codes → ∃ k r, unique_row (by_code c) t' k r)
      as Hrest.
    { intros t1 Hdom Hrows1 Hcodes1 Hin.
      destruct (IH t1 Hrows1 Hcodes1) as (t' & Hrun & Hdom' & Hrows').
      - intros u' Hu'. apply Hdata. by right.
      - by exists u, b.
      - exists t'. split; [done|]. split; [congruence|done]. }
    destruct (target uom) as [b0|] eqn:Hb0.
    2:{ apply Hrest; try done.
        apply elem_of_cons in Hu as [->|?]; [congruence|done]. }
    destruct (decide (b0 ∈ codes)) as [Hin0|Hout0].
    + destruct (Hrows b0 Hin0) as (kb & rb & Hub).
      rewrite (objects_get_found _ _ _ _ Hub). simpl.
      destruct Hu0 as (Hk0 & HP0 & Huniq0).
      apply Hrest.
      * apply dom_insert_lookup_L. by eexists.
      * intros c Hc. destruct (Hrows c Hc) as (kc & rc & Huc).
        eexists _, _. by eapply unique_row_update.
      * intros k r. destruct (decide (k0 = k)) as [<-|Hne].
        -- rewrite lookup_insert_eq. intros [= <-]. simpl. by apply (Hcodes k0).
        -- rewrite lookup_insert_ne by done. apply Hcodes.
      * apply elem_of_cons in Hu as [->|?]; [|done]. congruence.
    + assert (select (by_code b0) t = []) as Hnil.
      { apply select_nil. intros k r Hk.
        destruct (by_code b0 r) eqn:HP; [|done].
        apply by_code_eq in HP. subst b0. by apply Hcodes in Hk. }
      unfold objects_get. rewrite Hnil. by exists t.
Qed.

(** X12. When an entry of the seed list names a base unit that is not a code
    of the list, the command run on an empty table ends with
    [DoesNotExist] in its second loop, and the rows of the first loop stay:
    one row for every entry, each found by its code. *)
Theorem X12_unknown_base_unit (data : list seed) (uom : seed) (b : string) :
  NoDup (map s_code data) →
  uom ∈ data → target uom = Some b → b ∉ map s_code data →
  ∃ t', seed_all unique_code data ∅ = (inl DoesNotExist, t')
        ∧ size t' = List.length data
        ∧ Forall (λ u, ∃ k r, unique_row (by_code (s_code u)) t' k r) data.
Proof.
  intros Hnd Hin Hb Hdangling.
  assert (∀ k r, (∅ : gmap Z UOM) !! k = Some r → code r ∉ map s_code data)
    as Hclean by (intros k r; by rewrite lookup_empty).
  destruct (pass_one_fresh unique_code data ∅ Hnd Hclean)
    as (t1 & Hone & Hrows & _).
  destruct (pass_one_fresh_table data ∅ Hnd Hclean) as [Hsize Hcodes].
  rewrite Hone in Hsize, Hcodes. simpl in Hsize, Hcodes.
  rewrite map_size_empty in Hsize.
  destruct (pass_two_dangling data (map s_code data) t1)
    as (t' & Htwo & Hdom & Hrows').
  - intros c (u & -> & Hu)%list_elem_of_fmap. by apply Hrows.
  - intros k r Hk. destruct (Hcodes k r Hk) as [Hk0|?]; [|done].
    by rewrite lookup_empty in Hk0.
  - intros u Hu. apply list_elem_of_fmap. by exists u.
  - by exists uom, b.
  - exists t'. split; [|split].
    + unfold seed_all, bind. by rewrite Hone.
    + by rewrite <- size_dom, Hdom, size_dom.
    + apply Forall_forall. intros u Hu. apply Hrows'.
      apply list_elem_of_fmap. by exists u.
Qed.

End steps.

Lemma X8_handle_business_type_witness :
  let options : gmap string string := {[ "business_type" := "Creative" ]} in
  from_option is_ascii true (options !! "business_type") = true
  ∧ handle true options ∅
    = match options !! "business_type" with
      | None => handle true {[ "business_type" := "CREATIVE" ]} ∅
      | Some word =>
          if truthy word then
            if decide (upper word = "CREATIVE")
            then handle true {[ "business_type" := "CREATIVE" ]} ∅
            else (inl (KeyError (upper word)), ∅)
          else handle true {[ "business_type" := "CREATIVE" ]} ∅
      end.
Proof.
  intros options.
  assert (from_option is_ascii true (options !! "business_type") = true)
    as H1 by (vm_compute; reflexivity).
  split; [exact H1|].
  exact (X8_handle_business_type true options ∅ H1).
Defined.

Lemma X11_one_row_per_code_witness :
  let t' := (seed_all true CREATIVE ∅).2 in
  NoDup (map s_code CREATIVE)
  ∧ seed_all true CREATIVE ∅ = (inr (), t')
  ∧ Forall (λ uom, ∃ k r, unique_row (by_code (s_code uom)) t' k r
                          ∧ name r = s_name uom) CREATIVE.
Proof.
  intros t'.
  assert (NoDup (map s_code CREATIVE)) as H1
    by (apply (bool_decide_unpack _); vm_compute; exact I).
  assert (seed_all true CREATIVE ∅ = (inr (), t')) as H2
    by (vm_compute; reflexivity).
  split; [exact H1|]. split; [exact H2|].
  exact (X11_one_row_per_code true CREATIVE ∅ t' H1 H2).
Defined.

Lemma X12_unknown_base_unit_witness :
  let data := [ mkSeed "UOM_PAGE" "Trang" (Some "UOM_SHEET");
                mkSeed "UOM_WORD" "Chữ" None ] in
  let uom := mkSeed "UOM_PAGE" "Trang" (Some "UOM_SHEET") in
  NoDup (map s_code data)
  ∧ uom ∈ data ∧ target uom = Some "UOM_SHEET"
  ∧ ("UOM_SHEET" ∉ map s_code data)
  ∧ ∃ t', seed_all true data ∅ = (inl DoesNotExist, t')
          ∧ size t' = List.length data
          ∧ Forall (λ u, ∃ k r, unique_row (by_code (s_code u)) t' k r) data.
Proof.
  intros data uom.
  assert (NoDup (map s_code data)) as H1
    by (apply (bool_decide_unpack _); vm_compute; exact I).
  assert (uom ∈ data) as H2 by (unfold data, uom; by left).
  assert (target uom = Some "UOM_SHEET") as H3 by reflexivity.
  assert ("UOM_SHEET" ∉ map s_code data) as H4
    by (apply (bool_decide_unpack _); vm_compute; exact I).
  split; [exact H1|]. split; [exact H2|]. split; [exact H3|].
  split; [exact H4|].
  exact (X12_unknown_base_unit true data uom "UOM_SHEET" H1 H2 H3 H4).
Defined.

End SeedExtras.

(* ================================================================== *)
(** * Properties of the payroll admin *)
(* ================================================================== *)

Module PayrollFacts.
Import Payroll.
Local Open Scope list_scope.

Lemma get_fieldsets_done fieldsets out :
  get_fieldsets fieldsets = inr out →
  ∃ heading options rest k fs,
    fieldsets = (heading, options) :: rest
    ∧ options !! "fields" = Some (Seq k fs)
    ∧ out = (heading, <["fields" := Seq k (fs ++ payroll_fields)]> options)
              :: rest.
Proof.
  unfold get_fieldsets. destruct fieldsets as [|[heading options] rest]; [done|].
  destruct (options !! "fields") as [[k fs|s]|] eqn:Hf; try done.
  intros [= <-]. by exists heading, options, rest, k, fs.
Qed.

Lemma all_names_app fs gs : all_names (fs ++ gs) = all_names fs ++ all_names gs.
Proof. unfold all_names. by rewrite map_app, concat_app. Qed.

Lemma payroll_names_NoDup (fs : list field) :
  NoDup (all_names (fs ++ payroll_fields))
  ↔ NoDup (all_names fs)
    ∧ ∀ name, name ∈ all_names payroll_fields → name ∉ all_names fs.
Proof.
  rewrite all_names_app, NoDup_app. split.
  - intros (Hnd & Hdisj & _). split; [done|].
    intros name Hin Hin'. by apply (Hdisj name).
  - intros [Hnd Hdisj]. split; [done|]. split.
    + intros name Hin Hin'. by apply (Hdisj name).
    + apply (bool_decide_unpack _). vm_compute. exact I.
Qed.

(** X13. [get_fieldsets] changes the first fieldset only: the other
    fieldsets, the heading of the first and its other options are returned
    as they came, and the six payroll fields stand after the fields that
    were there.  No field name is shown twice in the result exactly when
    none was shown twice before and none of the six was shown. *)
Theorem X13_get_fieldsets_appends (fieldsets out : list fieldset) :
  get_fieldsets fieldsets = inr out →
  ∃ fs,
    first_fields fieldsets = Some fs
    ∧ first_fields out = Some (fs ++ payroll_fields)
    ∧ tail out = tail fieldsets
    ∧ fst <$> head out = fst <$> head fieldsets
    ∧ (∀ key, key ≠ "fields" →
              (head out ≫= λ f, f.2 !! key)
              = (head fieldsets ≫= λ f, f.2 !! key))
    ∧ (NoDup (all_names (fs ++ payroll_fields))
       ↔ NoDup (all_names fs)
         ∧ ∀ name, name ∈ all_names payroll_fields → name ∉ all_names fs).
Proof.
  intros (heading & options & rest & k & fs & -> & Hf & ->)%get_fieldsets_done.
  exists fs. split_and!.
  - simpl. by rewrite Hf.
  - simpl. by rewrite lookup_insert_eq.
  - done.
  - done.
  - intros key Hkey. simpl. by rewrite lookup_insert_ne.
  - apply payroll_names_NoDup.
Qed.

Lemma X13_get_fieldsets_appends_witness :
  let fieldsets : list fieldset :=
    [ (None, {[ "fields" := Seq TupleSeq [Name "name"; Name "code"] ]});
      (Some "Audit", {[ "fields" := Seq TupleSeq [Line ["created"; "modified"]] ]}) ] in
  let out : list fieldset :=
    [ (None, {[ "fields" := Seq TupleSeq ([Name "name"; Name "code"]
                                            ++ payroll_fields) ]});
      (Some "Audit", {[ "fields" := Seq TupleSeq [Line ["created"; "modified"]] ]}) ] in
  get_fieldsets fieldsets = inr out
  ∧ ∃ fs,
      first_fields fieldsets = Some fs
      ∧ first_fields out = Some (fs ++ payroll_fields)
      ∧ tail out = tail fieldsets
      ∧ fst <$> head out = fst <$> head fieldsets
      ∧ (∀ key, key ≠ "fields" →
                (head out ≫= λ f, f.2 !! key)
                = (head fieldsets ≫= λ f, f.2 !! key))
      ∧ (NoDup (all_names (fs ++ payroll_fields))
         ↔ NoDup (all_names fs)
           ∧ ∀ name, name ∈ all_names payroll_fields → name ∉ all_names fs).
Proof.
  intros fieldsets out.
  assert (get_fieldsets fieldsets = inr out) as H1 by (vm_compute; reflexivity).
  split; [exact H1|].
  exact (X13_get_fieldsets_appends fieldsets out H1).
Defined.

(** X14. [get_fieldsets] run on what it returned succeeds again and appends
    the six payroll fields once more: when the base class hands out the
    same fieldsets on every call, the first fieldset shows them as often as
    the method has been called. *)
Theorem X14_get_fieldsets_again (fieldsets out : list fieldset) :
  get_fieldsets fieldsets = inr out →
  ∃ fs out2,
    first_fields fieldsets = Some fs
    ∧ get_fieldsets out = inr out2
    ∧ first_fields out2 = Some (fs ++ payroll_fields ++ payroll_fields)
    ∧ out2 ≠ out.
Proof.
  intros (heading & options & rest & k & fs & -> & Hf & ->)%get_fieldsets_done.
  exists fs. eexists. split; [by simpl; rewrite Hf|].
  split; [by simpl; rewrite lookup_insert_eq|]. split.
  - simpl. rewrite lookup_insert_eq. by rewrite <- app_assoc.
  - intros Heq. injection Heq as Heq.
    apply (f_equal (λ m : gmap string value, m !! "fields")) in Heq.
    rewrite !lookup_insert_eq in Heq. injection Heq as Heq.
    apply (f_equal List.length) in Heq. rewrite !length_app in Heq.
    simpl in Heq. lia.
Qed.

Lemma X14_get_fieldsets_again_witness :
  let fieldsets : list fieldset :=
    [ (None, {[ "fields" := Seq ListSeq [Name "name"] ]}) ] in
  let out : list fieldset :=
    [ (None, {[ "fields" := Seq ListSeq ([Name "name"] ++ payroll_fields) ]}) ] in
  get_fieldsets fieldsets = inr out
  ∧ ∃ fs out2,
      first_fields fieldsets = Some fs
      ∧ get_fieldsets out = inr out2
      ∧ first_fields out2 = Some (fs ++ payroll_fields ++ payroll_fields)
      ∧ out2 ≠ out.
Proof.
  intros fieldsets out.
  assert (get_fieldsets fieldsets = inr out) as H1 by (vm_compute; reflexivity).
  split; [exact H1|].
  exact (X14_get_fieldsets_again fieldsets out H1).
Defined.

End PayrollFacts.
